(** * Rainflow cycle counting with Goodman correction

    A shallow embedding of [lib/rainflow/rainflow.py] (function [rainflow])
    and of [CycleCounter.rainflow_process] from
    [degradation_model/cycle_counting_algorithm.py].

    Numbers are IEEE-754 binary64 values, as in numpy's [float64]: the
    kernel's primitive floats.  Python integers ([j], [pr], [po], sizes)
    are [Z].  One-dimensional arrays are lists accessed by index with
    Python's conventions (a negative index counts from the end, an index
    outside the array raises [IndexError]); the 5 x (n-1) output array is
    a list of rows.  Exceptions are explicit results.  numpy's default
    error state is assumed, under which a floating-point operation never
    raises (division by zero and invalid operations only warn).

    The input array is given by the values the source stores into its
    float64 array [a] (an integer array is converted on that store).
    [np.empty] leaves the contents of [a] unspecified: they are a
    parameter [junk] of the model, and no result depends on it.

    The file has the model first, then a functional description of what
    the loops compute, the proof that the model refines it, and the
    claims of the specification, each settled on the model. *)

From Stdlib Require Import ZArith Floats Lia.
From stdpp Require Import base list strings gmap.

Local Open Scope Z_scope.

(** ** Exceptions and results *)

Inductive exn : Set :=
| ValueError   (* numpy: negative dimensions are not allowed *)
| IndexError.  (* numpy: index out of bounds *)

(** [Diverges] is the loop model running out of fuel; the theorems below
    show that [rainflow] never ends that way. *)
Inductive outcome (A : Type) : Type :=
| Returns (x : A)
| Raises (e : exn)
| Diverges.

Arguments Returns {A} x.
Arguments Raises {A} e.
Arguments Diverges {A}.

Definition bind {A B} (m : outcome A) (k : A -> outcome B) : outcome B :=
  match m with
  | Returns x => k x
  | Raises e => Raises e
  | Diverges => Diverges
  end.

Notation "x <- m ;; k" := (bind m (fun x => k))
  (at level 100, m at next level, right associativity,
   format "'[v' x  <-  m  ;;  '/' k ']'").

(** ** numpy arrays *)

Definition size (arr : list float) : Z := Z.of_nat (length arr).

(** Python index normalisation for an axis of [n] entries. *)
Definition py_index (n i : Z) : outcome nat :=
  if (0 <=? i) && (i <? n) then Returns (Z.to_nat i)
  else if (- n <=? i) && (i <? 0) then Returns (Z.to_nat (i + n))
  else Raises IndexError.

(** [arr[i]] *)
Definition getitem (arr : list float) (i : Z) : outcome float :=
  k <- py_index (size arr) i ;;
  match arr !! k with
  | Some x => Returns x
  | None => Raises IndexError
  end.

(** [arr[i] = v] *)
Definition setitem (arr : list float) (i : Z) (v : float)
  : outcome (list float) :=
  k <- py_index (size arr) i ;;
  Returns (<[k := v]> arr).

(** [m[r, c] = v] on a two-dimensional array stored as a list of rows. *)
Definition setitem2 (m : list (list float)) (r c : Z) (v : float)
  : outcome (list (list float)) :=
  kr <- py_index (Z.of_nat (length m)) r ;;
  match m !! kr with
  | Some row => row' <- setitem row c v ;; Returns (<[kr := row']> m)
  | None => Raises IndexError
  end.

(** [np.zeros((rows, cols))]: a negative dimension raises [ValueError]. *)
Definition np_zeros2 (rows cols : Z) : outcome (list (list float)) :=
  if (rows <? 0) || (cols <? 0) then Raises ValueError
  else Returns (replicate (Z.to_nat rows) (replicate (Z.to_nat cols) 0%float)).

(** [np.empty(shape)] for a one-dimensional shape: the contents are
    whatever the allocator left there, given by [junk]. *)
Definition np_empty (n : nat) (junk : nat -> float) : list float :=
  junk <$> seq 0 n.

(** [row[:stop]] *)
Definition slice_to (row : list float) (stop : Z) : list float :=
  if stop <? 0 then take (Z.to_nat (Z.max 0 (size row + stop))) row
  else take (Z.to_nat stop) row.

(** [m[:, :stop]] *)
Definition slice_cols (m : list (list float)) (stop : Z) : list (list float) :=
  (fun row => slice_to row stop) <$> m.

(** ** The local variables of [rainflow] *)

Record locals : Type := mkLocals {
  a : list float;                (* temporary array for algorithm *)
  j : Z;                         (* index of temporary array "a" *)
  pr : Z;                        (* index of input array *)
  po : Z;                        (* index of output array *)
  array_out : list (list float)  (* 5 x (tot_num - 1) output array *)
}.

(** The keyword arguments, with [flmargin] as computed on entry. *)
Record config : Type := mkConfig {
  flm : float;      (* fixed-load mean *)
  l_ult : float;    (* ultimate load *)
  uc_mult : float   (* partial-load scaling *)
}.

Definition flmargin (cfg : config) : float :=
  (l_ult cfg - abs (flm cfg))%float.

(** The five assignments [array_out[0..4, po] = ...] followed by
    [po += 1], which the source repeats in its three emission paths. *)
Definition write_cycle (s : locals)
    (lrange mean adj_range count adj_zero_mean_range : float)
  : outcome locals :=
  o <- setitem2 (array_out s) 0 (po s) lrange ;;
  o <- setitem2 o 1 (po s) mean ;;
  o <- setitem2 o 2 (po s) adj_range ;;
  o <- setitem2 o 3 (po s) count ;;
  o <- setitem2 o 4 (po s) adj_zero_mean_range ;;
  Returns (mkLocals (a s) (j s) (pr s) (po s + 1) o).

(** The condition of the [while] loop (lines 88-89).  Python's [&] is
    not short-circuit: both operands are evaluated, so the four array
    reads happen whatever [j] is. *)
Definition collapse_cond (s : locals) : outcome bool :=
  x1 <- getitem (a s) (j s - 1) ;;
  x2 <- getitem (a s) (j s - 2) ;;
  x3 <- getitem (a s) (j s) ;;
  x4 <- getitem (a s) (j s - 1) ;;
  Returns ((2 <=? j s) && (abs (x1 - x2) <=? abs (x3 - x4))%float).

(** The body of the [while] loop (lines 90-121). *)
Definition collapse_body (cfg : config) (s : locals) : outcome locals :=
  y1 <- getitem (a s) (j s - 1) ;;
  y2 <- getitem (a s) (j s - 2) ;;
  let lrange := abs (y1 - y2) in
  if j s =? 2 then
    (* partial range *)
    a0 <- getitem (a s) 0 ;;
    a1 <- getitem (a s) 1 ;;
    let mean := ((a0 + a1) / 2)%float in
    let adj_range := (lrange * flmargin cfg / (l_ult cfg - abs mean))%float in
    let adj_zero_mean_range :=
      (lrange * l_ult cfg / (l_ult cfg - abs mean))%float in
    v <- getitem (a s) 1 ;;
    arr <- setitem (a s) 0 v ;;
    v <- getitem arr 2 ;;
    arr <- setitem arr 1 v ;;
    let s' := mkLocals arr 1 (pr s) (po s) (array_out s) in
    if (0 <? lrange)%float
    then write_cycle s' lrange mean adj_range (uc_mult cfg) adj_zero_mean_range
    else Returns s'
  else
    (* full range *)
    b1 <- getitem (a s) (j s - 1) ;;
    b2 <- getitem (a s) (j s - 2) ;;
    let mean := ((b1 + b2) / 2)%float in
    let adj_range := (lrange * flmargin cfg / (l_ult cfg - abs mean))%float in
    let adj_zero_mean_range :=
      (lrange * l_ult cfg / (l_ult cfg - abs mean))%float in
    v <- getitem (a s) (j s) ;;
    arr <- setitem (a s) (j s - 2) v ;;
    let s' := mkLocals arr (j s - 2) (pr s) (po s) (array_out s) in
    if (0 <? lrange)%float
    then write_cycle s' lrange mean adj_range 1%float adj_zero_mean_range
    else Returns s'.

(** The [while] loop.  Every iteration lowers [j], so [fuel] bounds the
    number of iterations; the caller passes the current [j]. *)
Fixpoint collapse_loop (fuel : nat) (cfg : config) (s : locals)
  : outcome locals :=
  c <- collapse_cond s ;;
  if c : bool then
    match fuel with
    | O => Diverges
    | S fuel' => s' <- collapse_body cfg s ;; collapse_loop fuel' cfg s'
    end
  else Returns s.

(** One iteration of [for i in range(tot_num)] (lines 84-121). *)
Definition push_point (array_ext : list float) (cfg : config) (s : locals)
  : outcome locals :=
  let j' := j s + 1 in
  x <- getitem array_ext (pr s) ;;
  arr <- setitem (a s) j' x ;;
  let s' := mkLocals arr j' (pr s + 1) (po s) (array_out s) in
  collapse_loop (Z.to_nat j') cfg s'.

(** [for _ in range(n)] with a body that does not use the loop variable. *)
Fixpoint for_range (n : nat) (body : locals -> outcome locals) (s : locals)
  : outcome locals :=
  match n with
  | O => Returns s
  | S n' => s' <- body s ;; for_range n' body s'
  end.

(** One iteration of the residual loop [for i in range(j)]
    (lines 125-135). *)
Definition residual_step (cfg : config) (s : locals) (i : Z) : outcome locals :=
  p <- getitem (a s) i ;;
  q <- getitem (a s) (i + 1) ;;
  let lrange := abs (p - q) in
  p' <- getitem (a s) i ;;
  q' <- getitem (a s) (i + 1) ;;
  let mean := ((p' + q') / 2)%float in
  let adj_range := (lrange * flmargin cfg / (l_ult cfg - abs mean))%float in
  let adj_zero_mean_range :=
    (lrange * l_ult cfg / (l_ult cfg - abs mean))%float in
  if (0 <? lrange)%float
  then write_cycle s lrange mean adj_range (uc_mult cfg) adj_zero_mean_range
  else Returns s.

Fixpoint for_each (idx : list nat) (body : locals -> Z -> outcome locals)
    (s : locals) : outcome locals :=
  match idx with
  | [] => Returns s
  | i :: idx' => s' <- body s (Z.of_nat i) ;; for_each idx' body s'
  end.

(** The state on entry to the main loop (lines 72-79). *)
Definition initial (array_ext : list float) (junk : nat -> float)
  : outcome locals :=
  let tot_num := size array_ext in
  out <- np_zeros2 5 (tot_num - 1) ;;
  Returns (mkLocals (np_empty (length array_ext) junk) (-1) 0 0 out).

(** The main loop run for its first [k] iterations. *)
Definition main_loop (k : nat) (array_ext : list float) (junk : nat -> float)
    (cfg : config) : outcome locals :=
  s <- initial array_ext junk ;;
  for_range k (push_point array_ext cfg) s.

(** [rainflow(array_ext, flm, l_ult, uc_mult)] *)
Definition rainflow (array_ext : list float) (junk : nat -> float)
    (cfg : config) : outcome (list (list float)) :=
  s <- main_loop (length array_ext) array_ext junk cfg ;;
  s <- for_each (seq 0 (Z.to_nat (j s))) (residual_step cfg) s ;;
  Returns (slice_cols (array_out s) (po s)).

(** The defaults of the keyword arguments: [flm=0, l_ult=1e16,
    uc_mult=0.5]. *)
Definition defaults : config := mkConfig 0%float 1e16%float 0.5%float.

(** One possible content of a fresh [np.empty] array: all zeros. *)
Definition no_junk : nat -> float := fun _ => 0%float.

(** The turning points of [rainflow_demo.py]. *)
Definition demo : list float :=
  [3; -2; 4; 2; 5; -1; 1; 0; 3]%float.

(** ** [CycleCounter.rainflow_process] *)

(** The attributes of a [CycleCounter] that [rainflow_process] reads
    and writes.  The tables of extrema, which [peakdet] filled in when
    the object was built, are k x 2 arrays of rows (position, value), as
    the indexing [np.array(self.max_points)[:, 0]] of
    [turning_point_plot] has them. *)
Record CycleCounter : Type := mkCycleCounter {
  series : list float;                 (* self.data['series'] *)
  min_points : list (float * float);
  max_points : list (float * float);
  mean_soc : float;
  arr_dod : list float;
  arr_n : list float;
  arr_soc_mean : list float
}.

(** [arr[idx]] for an array of indices: an index outside raises. *)
Fixpoint take_at {A : Type} (l : list A) (idx : list nat) : outcome (list A) :=
  match idx with
  | [] => Returns []
  | i :: idx' =>
      match l !! i with
      | Some x => r <- take_at l idx' ;; Returns (x :: r)
      | None => Raises IndexError
      end
  end.

(** [m[r, :]] *)
Definition getrow (m : list (list float)) (r : nat) : outcome (list float) :=
  match m !! r with
  | Some row => Returns row
  | None => Raises IndexError
  end.

(** [m[:, idx]] *)
Fixpoint cols_at (m : list (list float)) (idx : list nat)
  : outcome (list (list float)) :=
  match m with
  | [] => Returns []
  | row :: m' =>
      row' <- take_at row idx ;;
      r <- cols_at m' idx ;;
      Returns (row' :: r)
  end.

Section Aggregator.
(** The two numpy functions the method calls, taken as they are:
    [numpy.mean] and [ndarray.argsort]. *)
Variable np_mean : list float -> float.
Variable argsort : list float -> list nat.

(** [CycleCounter.rainflow_process(self)] (lines 72-90); [rf.rainflow]
    is called with the defaults of its keyword arguments. *)
Definition rainflow_process (self : CycleCounter) (junk : nat -> float)
  : outcome CycleCounter :=
  let array_ext := min_points self ++ max_points self in
  array_ext <- take_at array_ext (argsort (fst <$> array_ext)) ;;
  let array_ext := snd <$> array_ext in
  array_out <- rainflow array_ext junk defaults ;;
  row0 <- getrow array_out 0 ;;
  array_out <- cols_at array_out (argsort row0) ;;
  let mean_soc := (np_mean (series self) / 100)%float in
  r0 <- getrow array_out 0 ;;
  r3 <- getrow array_out 3 ;;
  r1 <- getrow array_out 1 ;;
  Returns (mkCycleCounter (series self) (min_points self) (max_points self)
             mean_soc
             ((fun x => x / 100)%float <$> r0)
             r3
             ((fun x => x / 100)%float <$> r1)).
End Aggregator.

(** Stand-ins for the two numpy functions, to run the method on a
    concrete object: a mean that adds from the left, and a stable
    insertion argsort. *)
Definition seq_mean (l : list float) : float :=
  (fold_left PrimFloat.add l 0 / fold_left (fun k _ => k + 1) l 0)%float.

Fixpoint insert_index (key : nat -> float) (i : nat) (sorted : list nat)
  : list nat :=
  match sorted with
  | [] => [i]
  | k :: sorted' =>
      if (key i <? key k)%float then i :: sorted
      else k :: insert_index key i sorted'
  end.

Definition stable_argsort (l : list float) : list nat :=
  fold_left (fun acc i => insert_index (fun k => nth k l 0%float) i acc)
    (seq 0 (length l)) [].

(** A signal in percent with its extrema: a maximum 60 at position 1
    and a minimum 40 at position 2. *)
Definition percent_signal : CycleCounter :=
  mkCycleCounter [40; 60; 40; 60]%float
    [(2, 40)]%float [(1, 60)]%float 0%float [] [] [].

(** ** [degradation_model.py]: the stress models and the caller of
    [CycleCounter]

    The functions of this module raise exceptions that [rainflow] does
    not, so their results carry a wider type of exceptions.  A quantity
    that the source takes as a number or as a sequence is a [pyarg]; the
    depth of discharge and the temperature handed over by
    [final_degradation_model] are numbers.  [numpy.exp] and
    [numpy.power] are parameters.  The decimal constants are read as
    Python reads them, to the nearest binary64 value. *)

Inductive pyexn : Type :=
| Base (e : exn)            (* ValueError, IndexError *)
| TypeError
| KeyError (key : string)
| SystemExit (msg : string)
| Unfinished.               (* [Diverges] of a call that is lifted *)

Inductive attempt (A : Type) : Type :=
| Done (x : A)
| Fails (e : pyexn).

Arguments Done {A} x.
Arguments Fails {A} e.

Definition and_then {A B} (m : attempt A) (k : A -> attempt B) : attempt B :=
  match m with
  | Done x => k x
  | Fails e => Fails e
  end.

Notation "x <~ m ;; k" := (and_then m (fun x => k))
  (at level 100, m at next level, right associativity,
   format "'[v' x  <~  m  ;;  '/' k ']'").

(** A call of a function of the first part from this one. *)
Definition lift {A} (m : outcome A) : attempt A :=
  match m with
  | Returns x => Done x
  | Raises e => Fails (Base e)
  | Diverges => Fails Unfinished
  end.

(** An argument tested with [isinstance(_, collections.Iterable)]: a
    number, or a list or array of numbers.  The test is the one of the
    Python versions that still have [collections.Iterable] (before
    3.10). *)
Inductive pyarg : Type :=
| Scalar (x : float)
| Iterable (l : list float).

(** [for i in range(0, len(..))] over a state of any type. *)
Fixpoint for_index {S : Type} (idx : list nat) (body : S -> Z -> outcome S)
    (s : S) : outcome S :=
  match idx with
  | [] => Returns s
  | i :: idx' => s' <- body s (Z.of_nat i) ;; for_index idx' body s'
  end.

#[local] Set Warnings "-inexact-float".

(** The defaults of the keyword arguments of the stress models. *)
Definition k_t_default : float := 4.11e-10%float.
Definition k_v_default : float := 10.2%float.
Definition k_soc_default : float := 1.01e+00%float.
Definition s_ref_default : float := 0.5%float.
Definition k_T_default : float := 6.71e-02%float.
Definition T_ref_default : float := 25%float.

Section StressModels.
Variable np_exp : float -> float.
Variable np_power : float -> float -> float.

(** [time_deg_model(t, k_t)] (lines 183-192) *)
Definition time_deg_model (t k_t : float) : float :=
  let degradation := (k_t * t)%float in
  degradation.

(** [voltage_stress_model(soc, k_v)] (lines 195-210) *)
Definition voltage_stress_model (soc : pyarg) (k_v : float) : outcome pyarg :=
  let soc_threshold := 0.85%float in
  match soc with
  | Scalar soc =>
      if (soc_threshold <? soc)%float
      then Returns (Scalar (np_exp (k_v * (soc - soc_threshold))))
      else Returns (Scalar 1%float)
  | Iterable soc =>
      stress <-
        for_index (seq 0 (length soc))
          (fun stress i =>
             x <- getitem soc i ;;
             if (soc_threshold <? x)%float
             then
               x <- getitem soc i ;;
               Returns (stress ++ [np_exp (k_v * (x - soc_threshold))])
             else Returns (stress ++ [1%float]))
          [] ;;
      Returns (Iterable stress)
  end.

(** [soc_stress_model(soc, k_soc, s_ref)] (lines 213-229) *)
Definition soc_stress_model (soc : pyarg) (k_soc s_ref : float)
  : outcome pyarg :=
  match soc with
  | Scalar soc => Returns (Scalar (np_exp (k_soc * (soc - s_ref))))
  | Iterable soc =>
      stress <-
        for_index (seq 0 (length soc))
          (fun stress i =>
             x <- getitem soc i ;;
             Returns (stress ++ [np_exp (k_soc * (x - s_ref))]))
          [] ;;
      Returns (Iterable stress)
  end.

(** [temp_stress_model(T, k_T, T_ref)] (lines 250-274) *)
Definition temp_stress_model (T : pyarg) (k_T T_ref : float) : outcome pyarg :=
  match T with
  | Scalar T =>
      if (T_ref <=? T)%float
      then Returns (Scalar (np_exp (k_T * (T - T_ref))))
      else if (T_ref - 10 <? T)%float
      then Returns (Scalar 1%float)
      else Returns (Scalar (np_exp (k_T * (- T + T_ref - 10))))
  | Iterable T =>
      stress <-
        for_index (seq 0 (length T))
          (fun stress i =>
             x <- getitem T i ;;
             if (T_ref <=? x)%float
             then
               x <- getitem T i ;;
               Returns (stress ++ [np_exp (k_T * (x - T_ref))])
             else
               x <- getitem T i ;;
               if (T_ref - 10 <? x)%float
               then Returns (stress ++ [1%float])
               else
                 x <- getitem T i ;;
                 Returns (stress ++ [np_exp (k_T * (- x + T_ref - 10))]))
          [] ;;
      Returns (Iterable stress)
  end.

(** [params[key].value] on the parameters of a model, a dictionary. *)
Definition param (params : gmap string float) (key : string) : attempt float :=
  match params !! key with
  | Some v => Done v
  | None => Fails (KeyError key)
  end.

(** [emp_deg_model_after_1_dod(params, dod)] (lines 98-109) *)
Definition emp_deg_model_after_1_dod (params : gmap string float)
    (dod : float) : attempt float :=
  k_d1 <~ param params "k_d1" ;;
  k_d2 <~ param params "k_d2" ;;
  k_d3 <~ param params "k_d3" ;;
  let cycle_num_at_80_soh := (1 / (k_d1 * np_power dod k_d2 + k_d3))%float in
  Done cycle_num_at_80_soh.

(** [exp_deg_model_after_1_dod(params, dod)] (lines 125-136) *)
Definition exp_deg_model_after_1_dod (params : gmap string float)
    (dod : float) : attempt float :=
  k_d1 <~ param params "k_d1" ;;
  k_d2 <~ param params "k_d2" ;;
  k_d3 <~ param params "k_d3" ;;
  let stress_dod := (k_d1 * dod * np_exp (k_d2 * dod))%float in
  Done stress_dod.

(** [params = Parameters()] followed by the three [params.add]. *)
Definition three_params (k_d1 k_d2 k_d3 : float) : gmap string float :=
  <["k_d3" := k_d3]> (<["k_d2" := k_d2]> (<["k_d1" := k_d1]> ∅)).

(** [dod_deg_model(chemistry, dod)] (lines 152-180).  The result is
    [None] after the message printed for any other chemistry. *)
Definition dod_deg_model (chemistry : string) (dod : float)
  : attempt (option float) :=
  if String.eqb chemistry "NMC" then
    let params := three_params 1.47e+04 (-1.65e+00) 3.61e+02 in
    deg_per_cyc <~ emp_deg_model_after_1_dod params dod ;;
    Done (Some deg_per_cyc)
  else if String.eqb chemistry "LMO" then
    let params := three_params 1.39e+05 (-5.09e-01) (-1.21e+05) in
    deg_per_cyc <~ emp_deg_model_after_1_dod params dod ;;
    Done (Some deg_per_cyc)
  else if String.eqb chemistry "LFP" then
    let params := three_params 9.05e-06 1.40e+00 0 in
    deg_per_cyc <~ exp_deg_model_after_1_dod params dod ;;
    Done (Some deg_per_cyc)
  else Done None.

(** The value of a stress model called on a number. *)
Definition number (r : outcome pyarg) : attempt float :=
  x <~ lift r ;;
  match x with
  | Scalar y => Done y
  | Iterable _ => Fails TypeError
  end.

(** ** [CycleCounter.__init__] and [final_degradation_model] *)

(** A [CycleCounter] with the attributes that [rainflow_process] leaves
    alone. *)
Record CycleCounterObject : Type := mkCycleCounterObject {
  attrs : CycleCounter;
  data_t : list float;     (* self.data['t'] *)
  title : string;
  delta : float
}.

(** [pd.read_csv] reduced to the first two columns of the file, and
    [peakdet] of [lib/peak_det], which returns the table of the maxima
    and the table of the minima: both are parameters. *)
Variable read_csv : string -> attempt (list float * list float).
Variable peakdet :
  list float -> float -> attempt (list (float * float) * list (float * float)).
Variable np_mean : list float -> float.
Variable argsort : list float -> list nat.

(** [turning_points_extraction(self)] (lines 44-48) *)
Definition turning_points_extraction (self : CycleCounterObject)
  : attempt CycleCounterObject :=
  tabs <~ peakdet (series (attrs self)) (delta self) ;;
  let '(max_points, min_points) := tabs in
  let c := attrs self in
  Done (mkCycleCounterObject
          (mkCycleCounter (series c) min_points max_points (mean_soc c)
             (arr_dod c) (arr_n c) (arr_soc_mean c))
          (data_t self) (title self) (delta self)).

(** [CycleCounter(data_file_path, time_v, soc_v, delta, title)]
    (lines 18-42).  [pd.DataFrame] refuses two columns of different
    lengths with a [ValueError]; the vectors are lists or arrays. *)
Definition CycleCounter_init (data_file_path : string)
    (time_v soc_v : option (list float)) (delta : float) (title : string)
  : attempt CycleCounterObject :=
  columns <~
    (if String.eqb data_file_path ""
     then
       match time_v, soc_v with
       | Some t, Some series => Done (t, series)
       | _, _ =>
           Fails (SystemExit
                    "Either a path or vectors must be argument of CycleCounter")
       end
     else read_csv data_file_path) ;;
  let '(t, series) := columns in
  if negb (length t =? length series)%nat then Fails (Base ValueError)
  else
    turning_points_extraction
      (mkCycleCounterObject (mkCycleCounter series [] [] 0%float [] [] [])
         t title delta).

(** The body of the loop of [final_degradation_model] (lines 300-305). *)
Definition cycle_term (c : CycleCounter) (T : float) (chemistry : string)
    (cyc_degradation : float) (i : Z) : attempt float :=
  dod <~ lift (getitem (arr_dod c) i) ;;
  DoD_stress_cyc_i <~ dod_deg_model chemistry dod ;;
  soc <~ lift (getitem (arr_soc_mean c) i) ;;
  SoC_stress_cyc_i <~ number (soc_stress_model (Scalar soc)
                                k_soc_default s_ref_default) ;;
  temp_stress_cyc_i <~ number (temp_stress_model (Scalar T)
                                 k_T_default T_ref_default) ;;
  soc <~ lift (getitem (arr_soc_mean c) i) ;;
  voltage_stress_cyc_i <~ number (voltage_stress_model (Scalar soc)
                                    k_v_default) ;;
  n <~ lift (getitem (arr_n c) i) ;;
  match DoD_stress_cyc_i with
  | None => Fails TypeError
  | Some DoD_stress_cyc_i =>
      Done (cyc_degradation
            + n * DoD_stress_cyc_i * SoC_stress_cyc_i * temp_stress_cyc_i
              * voltage_stress_cyc_i)%float
  end.

Fixpoint for_cycles (idx : list nat) (body : float -> Z -> attempt float)
    (acc : float) : attempt float :=
  match idx with
  | [] => Done acc
  | i :: idx' => acc' <~ body acc (Z.of_nat i) ;; for_cycles idx' body acc'
  end.

(** [final_degradation_model(time_v, soc_v, T, time, chemistry, delta,
    title)] (lines 277-307), for a temperature that is a number. *)
Definition final_degradation_model (time_v soc_v : option (list float))
    (T time : float) (chemistry : string) (delta : float) (title : string)
    (junk : nat -> float) : attempt (float * float) :=
  cycle_count1 <~ CycleCounter_init "" time_v soc_v delta title ;;
  c <~ lift (rainflow_process np_mean argsort (attrs cycle_count1) junk) ;;
  let soc_mean := mean_soc c in
  let counted_cycles := length (arr_dod c) in
  let time_stress := time_deg_model time k_t_default in
  SoC_stress_cal <~ number (soc_stress_model (Scalar soc_mean)
                              k_soc_default s_ref_default) ;;
  temp_stress_cal <~ number (temp_stress_model (Scalar T)
                               k_T_default T_ref_default) ;;
  let cal_degradation :=
    (time_stress * SoC_stress_cal * temp_stress_cal)%float in
  cyc_degradation <~
    for_cycles (seq 0 counted_cycles) (cycle_term c T chemistry) 0%float ;;
  Done (cal_degradation, cyc_degradation).
End StressModels.





#[local] Set Warnings "+inexact-float".

(** Stand-ins for the parameters, to run the functions: the expansion
    [1 + x] for [numpy.exp], a product for [numpy.power], a file reader
    that finds no file and a [peakdet] that reports one maximum and one
    minimum. *)
Definition exp_stand_in (x : float) : float := (1 + x)%float.
Definition power_stand_in (x y : float) : float := (x * y)%float.
Definition no_csv (path : string) : attempt (list float * list float) :=
  Fails (Base ValueError).
Definition two_extrema (v : list float) (delta : float)
  : attempt (list (float * float) * list (float * float)) :=
  Done ([(1, 60)]%float, [(2, 40)]%float).

(** ** The output table *)

(** An infinity of either sign, or a NaN. *)
Definition is_inf_or_nan (x : float) : bool := is_infinity x || is_nan x.

(** One column of the output array. *)
Record cycle : Type := mkCycle {
  lrange : float;               (* 1) load range *)
  mean : float;                 (* 2) range mean *)
  adj_range : float;            (* 3) Goodman-adjusted range *)
  count : float;                (* 4) cycle count *)
  adj_zero_mean_range : float   (* 5) Goodman-adjusted range with flm = 0 *)
}.

(** The (5 x n_cycle) array whose columns are [cs]. *)
Definition table (cs : list cycle) : list (list float) :=
  [lrange <$> cs; mean <$> cs; adj_range <$> cs; count <$> cs;
   adj_zero_mean_range <$> cs].

(** The output buffer of an input of [n] points after the columns [cs]
    were written: the unused entries still hold the zeros of
    [np.zeros]. *)
Definition padded (n : nat) (cs : list cycle) : list (list float) :=
  (fun row => row ++ replicate (n - 1 - length cs)%nat 0%float) <$> table cs.

(** ** A functional description of the reduction

    The working stack of the source is the live prefix [a[0..j]] of the
    temporary array.  Below it is a list with the most recent point
    first.  Every interval the source considers for emission, in any of
    its three paths, is recorded with its two endpoints, whether the
    source then writes it or drops it for [lrange > 0] failing. *)

Inductive path : Set :=
| Partial    (* lines 93-106: the branch [j == 2] of the loop *)
| Full       (* lines 109-121: the [else] branch of the loop *)
| Residual.  (* lines 124-135: the loop over what is left in [a] *)

Record interval : Type := mkInterval {
  via : path;
  pt_p : float;
  pt_q : float
}.

(** The count written to row 3 in each path. *)
Definition weight (cfg : config) (k : path) : float :=
  match k with
  | Full => 1%float
  | Partial | Residual => uc_mult cfg
  end.

(** The column computed from an interval with endpoints [p] and [q]. *)
Definition cycle_of (cfg : config) (iv : interval) : cycle :=
  let r := abs (pt_p iv - pt_q iv) in
  let m := ((pt_p iv + pt_q iv) / 2)%float in
  mkCycle r m
    (r * flmargin cfg / (l_ult cfg - abs m))%float
    (weight cfg (via iv))
    (r * l_ult cfg / (l_ult cfg - abs m))%float.

(** The guard [lrange > 0] of the three paths. *)
Definition counted (iv : interval) : bool :=
  (0 <? abs (pt_p iv - pt_q iv))%float.

Fixpoint emitted (cfg : config) (ivs : list interval) : list cycle :=
  match ivs with
  | [] => []
  | iv :: ivs' =>
      if counted iv then cycle_of cfg iv :: emitted cfg ivs'
      else emitted cfg ivs'
  end.

(** The [while] loop on a stack whose top is [C]: the intervals it
    considers and the stack it leaves. *)
Fixpoint reduce (C : float) (below : list float)
  : list interval * list float :=
  match below with
  | B :: A :: rest =>
      if (abs (B - A) <=? abs (C - B))%float then
        match rest with
        | [] => ([mkInterval Partial B A], [C; B])
        | _ :: _ =>
            let '(ivs, stk) := reduce C rest in
            (mkInterval Full B A :: ivs, stk)
        end
      else ([], C :: below)
  | _ => ([], C :: below)
  end.

(** The main loop over the points [input], from the stack [stk]. *)
Fixpoint scan (input : list float) (stk : list float)
  : list interval * list float :=
  match input with
  | [] => ([], stk)
  | x :: xs =>
      let '(ivs, stk1) := reduce x stk in
      let '(ivs', stk2) := scan xs stk1 in
      (ivs ++ ivs', stk2)
  end.

(** The residual loop over the stack, oldest point first. *)
Fixpoint residuals (live : list float) : list interval :=
  match live with
  | p :: (q :: _) as tl => mkInterval Residual p q :: residuals tl
  | _ => []
  end.

Definition intervals (input : list float) : list interval :=
  let '(ivs, stk) := scan input [] in ivs ++ residuals (reverse stk).

Definition cycles (cfg : config) (input : list float) : list cycle :=
  emitted cfg (intervals input).

(** The state [s] of [rainflow] on an input of [n] points, of which [k]
    are consumed, holds the stack [stk] and has written the columns
    [cs]. *)
Definition repr (n k : nat) (s : locals) (stk : list float)
    (cs : list cycle) : Prop :=
  (exists dead, a s = reverse stk ++ dead) /\
  length (a s) = n /\
  j s = Z.of_nat (length stk) - 1 /\
  pr s = Z.of_nat k /\
  po s = Z.of_nat (length cs) /\
  array_out s = padded n cs /\
  (length cs + length stk <= k)%nat /\
  (k <= n)%nat.

(** How many stack points an interval takes away: the full-range branch
    drops both points of its interval, the two other paths one. *)
Definition points_used (k : path) : nat :=
  match k with
  | Full => 2
  | Partial | Residual => 1
  end.

Definition total_used (ivs : list interval) : nat :=
  sum_list_with (fun iv => points_used (via iv)) ivs.

(** The number of columns of an output array. *)
Definition n_cycle (out : list (list float)) : nat :=
  match out with
  | row :: _ => length row
  | [] => 0
  end.

(** The sum of the counts of an output array (row 3), added from the
    left. *)
Definition weight_sum (out : list (list float)) : float :=
  match out !! 3%nat with
  | Some row => fold_left PrimFloat.add row 0%float
  | None => 0%float
  end.

(** The intervals the source considers and drops for their range not
    being positive. *)
Definition discarded (input : list float) : list interval :=
  List.filter (fun iv => negb (counted iv)) (intervals input).

(** The closing test of the [while] loop on three consecutive stack
    points, oldest first. *)
Definition closes (A B C : float) : bool :=
  (abs (B - A) <=? abs (C - B))%float.

(** No three consecutive points of the stack, most recent first, pass
    the closing test. *)
Fixpoint settled (stk : list float) : Prop :=
  match stk with
  | [] => True
  | C :: tl =>
      match tl with
      | B :: A :: _ => closes A B C = false
      | _ => True
      end /\ settled tl
  end.

(** ** Floating-point facts *)

Section FloatFacts.
Local Open Scope float_scope.

Lemma Prim2SF_zero : Prim2SF 0 = S754_zero false.
Proof. reflexivity. Qed.

(** Binary64 addition is commutative. *)
Lemma add_comm_float (x y : float) : x + y = y + x.
Proof.
  apply Prim2SF_inj. rewrite !FloatAxioms.add_spec. unfold SF64add.
  destruct (Prim2SF x) as [sx|sx| |sx mx ex],
           (Prim2SF y) as [sy|sy| |sy my ey];
    simpl; try reflexivity.
  - destruct sx, sy; reflexivity.
  - destruct sx, sy; reflexivity.
  - rewrite Z.min_comm, Z.add_comm. reflexivity.
Qed.

(** A value above 0 is at least 0 and is not equal to 0. *)
Lemma positive_range (r : float) :
  (0 <? r) = true -> (0 <=? r) = true /\ (r =? 0) = false.
Proof.
  rewrite FloatAxioms.ltb_spec, FloatAxioms.leb_spec, FloatAxioms.eqb_spec.
  rewrite Prim2SF_zero.
  unfold SFltb, SFleb, SFeqb.
  destruct (Prim2SF r) as [s|s| |s m e]; simpl; try discriminate;
    destruct s; simpl; try discriminate; auto.
Qed.

Lemma is_inf_or_nan_spec (x : float) :
  is_inf_or_nan x = true <->
  (exists s, Prim2SF x = S754_infinity s) \/ Prim2SF x = S754_nan.
Proof.
  unfold is_inf_or_nan, is_infinity, is_nan.
  rewrite !FloatAxioms.eqb_spec, FloatAxioms.abs_spec.
  change (Prim2SF infinity) with (S754_infinity false).
  unfold SFeqb.
  destruct (Prim2SF x) as [s|s| |s m e]; simpl.
  - split; [discriminate|]. intros [[s' H]|H]; discriminate.
  - split; [eauto|reflexivity].
  - split; [auto|reflexivity].
  - split.
    + rewrite Z.compare_refl, Pos.compare_cont_refl.
      destruct s; simpl; discriminate.
    + intros [[s' H]|H]; discriminate.
Qed.

(** When [y == z] the difference [z - y] is a zero, or a NaN for two
    infinities, and a quotient by it is an infinity or a NaN. *)
Lemma div_degenerate (x y z : float) :
  (y =? z) = true -> is_inf_or_nan (x / (z - y)) = true.
Proof.
  intros H. apply is_inf_or_nan_spec.
  rewrite FloatAxioms.div_spec, FloatAxioms.sub_spec.
  rewrite FloatAxioms.eqb_spec in H.
  unfold SFeqb in H. unfold SF64div, SF64sub.
  destruct (Prim2SF y) as [[]|[]| |[] my ey],
           (Prim2SF z) as [[]|[]| |[] mz ez];
    simpl in H; try discriminate;
    try (destruct (Z.compare_spec ey ez) as [He | ? | ?]; try discriminate;
         change (PosDef.Pos.compare_cont Eq my mz)
           with (Pos.compare my mz) in H;
         destruct (Pos.compare_spec my mz) as [Hm | ? | ?];
         simpl in H; try discriminate; subst;
         unfold SFsub; rewrite Z.sub_diag; simpl);
    destruct (Prim2SF x) as [[]|[]| |[] mx ex]; simpl; eauto.
Qed.
End FloatFacts.

(** ** Facts about results and array accesses *)

Section ArrayFacts.
Implicit Types (arr pre post : list float) (x v : float).

Lemma py_index_nat (n : Z) (k : nat) :
  Z.of_nat k < n -> py_index n (Z.of_nat k) = Returns k.
Proof.
  intros H. unfold py_index.
  destruct (Z.leb_spec 0 (Z.of_nat k)); [|lia].
  destruct (Z.ltb_spec (Z.of_nat k) n); [|lia].
  simpl. by rewrite Nat2Z.id.
Qed.

Lemma getitem_lookup arr (k : nat) x (i : Z) :
  arr !! k = Some x -> i = Z.of_nat k -> getitem arr i = Returns x.
Proof.
  intros H ->. unfold getitem, size.
  rewrite py_index_nat; [simpl; by rewrite H|].
  apply lookup_lt_Some in H. lia.
Qed.

Lemma getitem_app pre x post (i : Z) :
  i = Z.of_nat (length pre) -> getitem (pre ++ x :: post) i = Returns x.
Proof. intros. eapply getitem_lookup; [|done]. by apply list_lookup_middle. Qed.

Lemma getitem_app1 pre x0 x post (i : Z) :
  i = Z.of_nat (length pre) + 1 ->
  getitem (pre ++ x0 :: x :: post) i = Returns x.
Proof.
  intros. rewrite (cons_middle x0), app_assoc.
  apply getitem_app. rewrite length_app. simpl. lia.
Qed.

Lemma getitem_app2 pre x0 x1 x post (i : Z) :
  i = Z.of_nat (length pre) + 2 ->
  getitem (pre ++ x0 :: x1 :: x :: post) i = Returns x.
Proof.
  intros. rewrite (cons_middle x0), app_assoc.
  apply getitem_app1. rewrite length_app. simpl. lia.
Qed.

Lemma setitem_lookup arr (k : nat) (i : Z) v :
  (k < length arr)%nat -> i = Z.of_nat k ->
  setitem arr i v = Returns (<[k := v]> arr).
Proof.
  intros H ->. unfold setitem, size. rewrite py_index_nat by lia. done.
Qed.

Lemma setitem_app pre x post (i : Z) v :
  i = Z.of_nat (length pre) ->
  setitem (pre ++ x :: post) i v = Returns (pre ++ v :: post).
Proof.
  intros ->. unfold setitem, size.
  rewrite py_index_nat by (rewrite length_app; simpl; lia).
  simpl. f_equal. rewrite insert_app_r_alt by lia.
  by rewrite Nat.sub_diag.
Qed.

(** Every index from [-size] up to [size - 1] can be read. *)
Lemma getitem_total arr (i : Z) :
  - size arr <= i < size arr -> exists x, getitem arr i = Returns x.
Proof.
  intros H. unfold getitem, py_index, size in *.
  destruct (Z.leb_spec 0 i); simpl.
  - destruct (Z.ltb_spec i (Z.of_nat (length arr))); [|lia]. simpl.
    destruct (lookup_lt_is_Some_2 arr (Z.to_nat i)) as [x ->]; [lia|eauto].
  - destruct (Z.leb_spec (- Z.of_nat (length arr)) i); [|lia].
    destruct (Z.ltb_spec i 0); [|lia]. simpl.
    destruct (lookup_lt_is_Some_2 arr (Z.to_nat (i + Z.of_nat (length arr))))
      as [x ->]; [lia|eauto].
Qed.

End ArrayFacts.

Section TableFacts.
Implicit Types (cs : list cycle) (c : cycle).

(** Writing a column while there is room appends it. *)
Lemma write_cycle_padded (n : nat) cs c arr jj pp :
  (length cs < n - 1)%nat ->
  write_cycle (mkLocals arr jj pp (Z.of_nat (length cs)) (padded n cs))
    (lrange c) (mean c) (adj_range c) (count c) (adj_zero_mean_range c)
  = Returns (mkLocals arr jj pp (Z.of_nat (length (cs ++ [c])))
               (padded n (cs ++ [c]))).
Proof.
  intros Hroom. unfold write_cycle, padded, table.
  replace (n - 1 - length cs)%nat with (S (n - 1 - length (cs ++ [c])))
    by (rewrite length_app; simpl; lia).
  generalize (n - 1 - length (cs ++ [c]))%nat as k. intros k.
  unfold setitem2. simpl.
  repeat (rewrite setitem_app by (by rewrite length_fmap); simpl).
  rewrite !fmap_app, <- !app_assoc, length_app. simpl.
  do 2 f_equal. lia.
Qed.

Lemma slice_cols_padded (n : nat) cs :
  slice_cols (padded n cs) (Z.of_nat (length cs)) = table cs.
Proof.
  unfold slice_cols, padded, table, slice_to. simpl.
  destruct (Z.ltb_spec (Z.of_nat (length cs)) 0); [lia|].
  rewrite Nat2Z.id.
  repeat f_equal; by rewrite take_app_length' by (by rewrite length_fmap).
Qed.

Lemma np_zeros2_padded (n : nat) :
  (1 <= n)%nat -> np_zeros2 5 (Z.of_nat n - 1) = Returns (padded n []).
Proof.
  intros H. unfold np_zeros2, padded.
  destruct (Z.ltb_spec (Z.of_nat n - 1) 0); [lia|]. simpl.
  change (Pos.to_nat 5) with 5%nat. simpl.
  by replace (Z.to_nat (Z.of_nat n - 1)) with (n - 1 - 0)%nat by lia.
Qed.
End TableFacts.

(** ** The source refines the functional description *)

Section Refinement.
Variable cfg : config.
Variable n : nat.

Implicit Types (s : locals) (arr stk below pre dead : list float)
  (cs : list cycle).

Ltac reads :=
  repeat first
    [ rewrite getitem_app by (rewrite ?length_reverse; simpl; lia)
    | rewrite getitem_app1 by (rewrite ?length_reverse; simpl; lia)
    | rewrite getitem_app2 by (rewrite ?length_reverse; simpl; lia)
    | rewrite setitem_app by (rewrite ?length_reverse; simpl; lia)
    | progress cbn [bind a j pr po array_out] ].

Lemma emitted_app (ivs ivs' : list interval) :
  emitted cfg (ivs ++ ivs') = emitted cfg ivs ++ emitted cfg ivs'.
Proof.
  induction ivs as [|iv ivs IH]; simpl; [done|].
  destruct (counted iv); simpl; by rewrite IH.
Qed.

(** Below two points on the stack the condition is false, the array
    reads at negative indices wrapping around to the end of [a]. *)
Lemma collapse_cond_short s :
  2 <= size (a s) -> 0 <= j s < 2 -> collapse_cond s = Returns false.
Proof.
  intros Hsz Hj. unfold collapse_cond.
  destruct (getitem_total (a s) (j s - 1)) as [x1 ->]; [lia|].
  destruct (getitem_total (a s) (j s - 2)) as [x2 ->]; [lia|].
  destruct (getitem_total (a s) (j s)) as [x3 ->]; [lia|].
  simpl. destruct (Z.leb_spec 2 (j s)); [lia|done].
Qed.

Lemma collapse_cond_three pre A B C dead jj pp oo out :
  jj = Z.of_nat (length pre) + 2 ->
  collapse_cond (mkLocals (pre ++ A :: B :: C :: dead) jj pp oo out)
  = Returns (abs (B - A) <=? abs (C - B))%float.
Proof.
  intros ->. unfold collapse_cond. reads.
  destruct (Z.leb_spec 2 (Z.of_nat (length pre) + 2)); [done|lia].
Qed.

(** One emission: the column is written when the range is positive. *)
Lemma emit_padded iv cs arr jj pp :
  (length cs < n - 1)%nat ->
  (if counted iv
   then write_cycle (mkLocals arr jj pp (Z.of_nat (length cs)) (padded n cs))
          (lrange (cycle_of cfg iv)) (mean (cycle_of cfg iv))
          (adj_range (cycle_of cfg iv)) (count (cycle_of cfg iv))
          (adj_zero_mean_range (cycle_of cfg iv))
   else Returns (mkLocals arr jj pp (Z.of_nat (length cs)) (padded n cs)))
  = Returns (mkLocals arr jj pp
               (Z.of_nat (length (cs ++ emitted cfg [iv])))
               (padded n (cs ++ emitted cfg [iv]))).
Proof.
  intros Hroom. unfold emitted. destruct (counted iv).
  - by apply (write_cycle_padded n cs (cycle_of cfg iv)).
  - by rewrite app_nil_r.
Qed.

Lemma collapse_body_partial A B C dead pp cs :
  (length cs < n - 1)%nat ->
  collapse_body cfg
    (mkLocals (A :: B :: C :: dead) 2 pp (Z.of_nat (length cs)) (padded n cs))
  = Returns
      (mkLocals (B :: C :: C :: dead) 1 pp
         (Z.of_nat (length (cs ++ emitted cfg [mkInterval Partial B A])))
         (padded n (cs ++ emitted cfg [mkInterval Partial B A]))).
Proof.
  intros Hroom. unfold collapse_body. cbn [a j pr po array_out].
  change (2 - 1) with 1. change (2 - 2) with 0. change (2 =? 2) with true.
  rewrite !(getitem_lookup _ 1 B 1), !(getitem_lookup _ 0 A 0) by done.
  cbn [bind].
  rewrite (setitem_lookup _ 0 0 B) by (reflexivity || (simpl; lia)).
  cbn [bind].
  change (<[0%nat:=B]> (A :: B :: C :: dead)) with (B :: B :: C :: dead).
  rewrite (getitem_lookup _ 2 C 2) by done. cbn [bind].
  rewrite (setitem_lookup _ 1 1 C) by (reflexivity || (simpl; lia)).
  cbn [bind].
  change (<[1%nat:=C]> (B :: B :: C :: dead)) with (B :: C :: C :: dead).
  rewrite (add_comm_float A B).
  by rewrite <- (emit_padded (mkInterval Partial B A)).
Qed.

Lemma collapse_body_full pre A B C dead jj pp cs :
  jj = Z.of_nat (length pre) + 2 -> pre <> [] ->
  (length cs < n - 1)%nat ->
  collapse_body cfg
    (mkLocals (pre ++ A :: B :: C :: dead) jj pp (Z.of_nat (length cs))
       (padded n cs))
  = Returns
      (mkLocals (pre ++ C :: B :: C :: dead) (jj - 2) pp
         (Z.of_nat (length (cs ++ emitted cfg [mkInterval Full B A])))
         (padded n (cs ++ emitted cfg [mkInterval Full B A]))).
Proof.
  intros -> Hpre Hroom. unfold collapse_body. reads.
  destruct (Z.eqb_spec (Z.of_nat (length pre) + 2) 2) as [He|_].
  { destruct pre; [done|simpl in He; lia]. }
  reads.
  by rewrite <- (emit_padded (mkInterval Full B A)).
Qed.
Lemma repr_intro (k : nat) arr jj pp oo out stk cs dead :
  arr = reverse stk ++ dead ->
  length arr = n ->
  jj = Z.of_nat (length stk) - 1 ->
  pp = Z.of_nat k ->
  oo = Z.of_nat (length cs) ->
  out = padded n cs ->
  (length cs + length stk <= k)%nat ->
  (k <= n)%nat ->
  repr n k (mkLocals arr jj pp oo out) stk cs.
Proof. intros. unfold repr. simpl. eauto 10. Qed.

Lemma collapse_loop_short (fuel : nat) s :
  2 <= size (a s) -> 0 <= j s < 2 -> collapse_loop fuel cfg s = Returns s.
Proof.
  intros Hsz Hj. destruct fuel; simpl; by rewrite collapse_cond_short.
Qed.

Lemma residual_step_at pre p q post jj pp cs :
  (length cs < n - 1)%nat ->
  residual_step cfg
    (mkLocals (pre ++ p :: q :: post) jj pp (Z.of_nat (length cs))
       (padded n cs))
    (Z.of_nat (length pre))
  = Returns
      (mkLocals (pre ++ p :: q :: post) jj pp
         (Z.of_nat (length (cs ++ emitted cfg [mkInterval Residual p q])))
         (padded n (cs ++ emitted cfg [mkInterval Residual p q]))).
Proof.
  intros Hroom. unfold residual_step. cbn [a j pr po array_out].
  rewrite !getitem_app, !getitem_app1 by lia. cbn [bind].
  by rewrite <- (emit_padded (mkInterval Residual p q)).
Qed.

(** The residual loop over the live part [live] of the array, which
    follows [pre]. *)
Lemma for_each_residuals :
  forall live pre dead jj pp cs,
    (length cs + length live <= n)%nat ->
    for_each (seq (length pre) (length live - 1)) (residual_step cfg)
      (mkLocals (pre ++ live ++ dead) jj pp (Z.of_nat (length cs))
         (padded n cs))
    = Returns
        (mkLocals (pre ++ live ++ dead) jj pp
           (Z.of_nat (length (cs ++ emitted cfg (residuals live))))
           (padded n (cs ++ emitted cfg (residuals live)))).
Proof.
  induction live as [|p live IH]; intros pre dead jj pp cs Hroom.
  - simpl. by rewrite app_nil_r.
  - destruct live as [|q live].
    + simpl. by rewrite app_nil_r.
    + cbn [length] in *.
      replace (S (S (length live)) - 1)%nat with (S (length live)) by lia.
      cbn [seq for_each app].
      rewrite residual_step_at by lia. cbn [bind].
      pose proof (IH (pre ++ [p]) dead jj pp
                    (cs ++ emitted cfg [mkInterval Residual p q])) as IH'.
      rewrite (length_app pre [p]) in IH'. cbn [length] in IH'.
      replace (length pre + 1)%nat with (S (length pre)) in IH' by lia.
      replace (S (length live) - 1)%nat with (length live) in IH' by lia.
      rewrite <- (app_assoc pre [p]) in IH'. cbn [app] in IH'.
      rewrite IH'.
      * change (residuals (p :: q :: live))
          with ([mkInterval Residual p q] ++ residuals (q :: live)).
        by rewrite emitted_app, !app_assoc.
      * assert (length (emitted cfg [mkInterval Residual p q]) <= 1)%nat
          by (simpl; destruct (counted _); simpl; lia).
        rewrite length_app. lia.
Qed.

Hypothesis two_points : (2 <= n)%nat.

(** The [while] loop computes [reduce]; [fuel] at least the number of
    points below the top is enough. *)
Lemma collapse_loop_reduce (k fuel : nat) :
  forall below C s cs,
    repr n k s (C :: below) cs ->
    (length below <= fuel)%nat ->
    exists s',
      collapse_loop fuel cfg s = Returns s' /\
      repr n k s' (reduce C below).2 (cs ++ emitted cfg (reduce C below).1).
Proof.
  induction fuel as [|fuel IH]; intros below C s cs Hrepr Hfuel.
  - destruct below; [|simpl in Hfuel; lia].
    pose proof Hrepr as (_ & Hlen & Hj & _). simpl in Hj.
    exists s. rewrite collapse_loop_short by (unfold size; lia).
    split; [done|]. simpl. by rewrite app_nil_r.
  - destruct below as [|B [|A rest]].
    + pose proof Hrepr as (_ & Hlen & Hj & _). simpl in Hj.
      exists s. rewrite collapse_loop_short by (unfold size; lia).
      split; [done|]. simpl. by rewrite app_nil_r.
    + pose proof Hrepr as (_ & Hlen & Hj & _). simpl in Hj.
      exists s. rewrite collapse_loop_short by (unfold size; lia).
      split; [done|]. simpl. by rewrite app_nil_r.
    + destruct s as [arr jj pp oo out].
      destruct Hrepr as ([dead Hlive] & Hlen & Hj & Hpr & Hpo & Hout & Hroom & Hk).
      simpl in Hlive, Hlen, Hj, Hpr, Hpo, Hout, Hroom.
      rewrite !reverse_cons, <- !app_assoc in Hlive. simpl in Hlive.
      subst arr oo out.
      assert (Hjj : jj = Z.of_nat (length (reverse rest)) + 2)
        by (rewrite length_reverse; lia).
      cbn [collapse_loop].
      rewrite (collapse_cond_three _ _ _ _ _ _ _ _ _ Hjj). cbn [bind].
      cbn [reduce].
      destruct (abs (B - A) <=? abs (C - B))%float.
      * destruct rest as [|R rest].
        -- (* partial range *)
           assert (jj = 2) as -> by (simpl in Hjj; lia).
           change (reverse [] ++ A :: B :: C :: dead)
             with (A :: B :: C :: dead).
           rewrite collapse_body_partial by lia. cbn [bind].
           rewrite collapse_loop_short
             by (unfold size; simpl in *; lia).
           eexists. split; [done|]. cbn [fst snd].
           assert (length (emitted cfg [mkInterval Partial B A]) <= 1)%nat
             by (simpl; destruct (counted _); simpl; lia).
           repeat split; simpl in *; try done; try lia.
           ++ by exists (C :: dead).
           ++ rewrite length_app. lia.
        -- (* full range *)
           rewrite (collapse_body_full _ _ _ _ _ _ _ _ Hjj)
             by (first [lia | by intros ?%(f_equal length);
                                rewrite length_reverse in *]).
           cbn [bind].
           destruct (IH (R :: rest) C
                       (mkLocals (reverse (R :: rest) ++ C :: B :: C :: dead)
                          (jj - 2) pp
                          (Z.of_nat (length (cs ++ emitted cfg [mkInterval Full B A])))
                          (padded n (cs ++ emitted cfg [mkInterval Full B A])))
                       (cs ++ emitted cfg [mkInterval Full B A]))
             as (s' & Hs' & Hrepr').
           { apply repr_intro with (dead := B :: C :: dead).
             - by rewrite (reverse_cons _ C), <- app_assoc.
             - rewrite length_app in Hlen |- *. cbn [length] in *. lia.
             - cbn [length] in *. lia.
             - done.
             - done.
             - done.
             - rewrite length_app. cbn [length] in *.
               assert (length (emitted cfg [mkInterval Full B A]) <= 1)%nat
                 by (simpl; destruct (counted _); simpl; lia).
               lia.
             - done. }
           { simpl in *. lia. }
           exists s'. split; [done|].
           destruct (reduce C (R :: rest)) as [ivs stk'] eqn:Hred.
           cbn [fst snd] in *.
           change (mkInterval Full B A :: ivs)
             with ([mkInterval Full B A] ++ ivs).
           by rewrite emitted_app, app_assoc.
      * exists (mkLocals (reverse rest ++ A :: B :: C :: dead) jj pp
                  (Z.of_nat (length cs)) (padded n cs)).
        split; [done|]. cbn [fst snd emitted]. rewrite app_nil_r.
        repeat split; simpl; try done; try lia.
        exists dead. by rewrite !reverse_cons, <- !app_assoc.
Qed.
Variable array_ext : list float.
Hypothesis array_ext_size : length array_ext = n.

(** One iteration of the main loop pushes [array_ext[k]] and runs
    [reduce]. *)
Lemma push_point_reduce (k : nat) s stk cs x :
  repr n k s stk cs ->
  array_ext !! k = Some x ->
  exists s',
    push_point array_ext cfg s = Returns s' /\
    repr n (S k) s' (reduce x stk).2 (cs ++ emitted cfg (reduce x stk).1).
Proof.
  intros Hrepr Hx.
  destruct s as [arr jj pp oo out].
  destruct Hrepr as ([dead Hlive] & Hlen & Hj & Hpr & Hpo & Hout & Hroom & Hk).
  cbn [a j pr po array_out] in *.
  pose proof (lookup_lt_Some _ _ _ Hx) as Hkn.
  destruct dead as [|d dead].
  { rewrite app_nil_r in Hlive. subst arr.
    rewrite length_reverse in Hlen. lia. }
  subst arr pp oo out.
  unfold push_point. cbn [a j pr po array_out].
  rewrite (getitem_lookup _ k x) by done. cbn [bind].
  rewrite setitem_app by (rewrite length_reverse; lia). cbn [bind].
  apply collapse_loop_reduce; [|lia].
  apply repr_intro with (dead := dead).
  - by rewrite reverse_cons, <- app_assoc.
  - rewrite length_app in Hlen |- *. cbn [length] in *. lia.
  - cbn [length]. lia.
  - lia.
  - done.
  - done.
  - cbn [length]. lia.
  - lia.
Qed.

(** [m] iterations of the main loop from point [k] on. *)
Lemma for_range_scan (m : nat) :
  forall (k : nat) s stk cs,
    repr n k s stk cs ->
    (k + m <= n)%nat ->
    exists s',
      for_range m (push_point array_ext cfg) s = Returns s' /\
      repr n (k + m) s' (scan (take m (drop k array_ext)) stk).2
        (cs ++ emitted cfg (scan (take m (drop k array_ext)) stk).1).
Proof.
  induction m as [|m IH]; intros k s stk cs Hrepr Hkm.
  - exists s. rewrite Nat.add_0_r. simpl. by rewrite app_nil_r.
  - destruct (lookup_lt_is_Some_2 array_ext k) as [x Hx]; [lia|].
    destruct (push_point_reduce k s stk cs x Hrepr Hx) as (s1 & Hs1 & Hrepr1).
    destruct (IH (S k) s1 _ _ Hrepr1) as (s' & Hs' & Hrepr'); [lia|].
    exists s'. cbn [for_range]. rewrite Hs1. cbn [bind].
    split; [done|].
    rewrite (drop_S _ _ _ Hx). cbn [take scan].
    destruct (reduce x stk) as [ivs stk1]. cbn [fst snd] in *.
    destruct (scan (take m (drop (S k) array_ext)) stk1) as [ivs' stk2].
    cbn [fst snd] in *.
    rewrite emitted_app, app_assoc.
    by replace (k + S m)%nat with (S k + m)%nat by lia.
Qed.

Lemma initial_repr junk :
  exists s, initial array_ext junk = Returns s /\ repr n 0 s [] [].
Proof.
  unfold initial, size. rewrite array_ext_size.
  rewrite np_zeros2_padded by lia. cbn [bind].
  eexists. split; [done|].
  apply repr_intro with (dead := np_empty n junk); try done.
  - unfold np_empty. by rewrite length_fmap, length_seq.
  - lia.
Qed.

Lemma main_loop_scan junk (m : nat) :
  (m <= n)%nat ->
  exists s,
    main_loop m array_ext junk cfg = Returns s /\
    repr n m s (scan (take m array_ext) []).2
      (emitted cfg (scan (take m array_ext) []).1).
Proof.
  intros Hm. unfold main_loop.
  destruct (initial_repr junk) as (s0 & -> & Hrepr0). cbn [bind].
  destruct (for_range_scan m 0 s0 [] [] Hrepr0) as (s & Hs & Hrepr); [lia|].
  exists s. split; [done|]. by rewrite drop_0 in Hrepr.
Qed.

(** [rainflow] returns the table of the columns of [cycles]. *)
Lemma rainflow_cycles junk :
  rainflow array_ext junk cfg = Returns (table (cycles cfg array_ext)).
Proof.
  unfold rainflow. rewrite array_ext_size.
  destruct (main_loop_scan junk n) as (s & -> & Hrepr); [lia|].
  cbn [bind]. unfold cycles, intervals.
  rewrite <- array_ext_size, firstn_all in Hrepr.
rewrite array_ext_size in Hrepr.
  destruct (scan array_ext []) as [ivs stk]. cbn [fst snd] in Hrepr.
  destruct s as [arr jj pp oo out].
  destruct Hrepr as ([dead Hlive] & Hlen & Hj & Hpr & Hpo & Hout & Hroom & Hk).
  cbn [a j pr po array_out] in *. subst arr oo out.
  replace (Z.to_nat jj) with (length (reverse stk) - 1)%nat
    by (rewrite length_reverse; lia).
  rewrite (for_each_residuals (reverse stk) [] dead)
    by (rewrite length_reverse; lia).
  cbn [bind po array_out].
  by rewrite slice_cols_padded, emitted_app.
Qed.
End Refinement.

(** ** Properties of the functional description *)

Lemma total_used_app (ivs ivs' : list interval) :
  total_used (ivs ++ ivs') = (total_used ivs + total_used ivs')%nat.
Proof. apply sum_list_with_app. Qed.

Ltac elems :=
  intros;
  repeat match goal with
         | H : _ /\ _ |- _ => destruct H
         | H : _ ∈ _ :: _ |- _ => apply elem_of_cons in H as [?|?]
         | H : _ ∈ _ ++ _ |- _ => apply elem_of_app in H as [?|?]
         | H : _ ∈ [] |- _ => by apply elem_of_nil in H
         end;
  subst; rewrite ?elem_of_cons, ?elem_of_app; intuition (subst; auto).

(** Case analysis following the recursion of [reduce]. *)
Lemma reduce_cases (P : float -> list float -> list interval * list float -> Prop) :
  (forall C, P C [] ([], [C])) ->
  (forall C B, P C [B] ([], [C; B])) ->
  (forall C B A rest,
      (abs (B - A) <=? abs (C - B))%float = false ->
      P C (B :: A :: rest) ([], C :: B :: A :: rest)) ->
  (forall C B A,
      (abs (B - A) <=? abs (C - B))%float = true ->
      P C [B; A] ([mkInterval Partial B A], [C; B])) ->
  (forall C B A R rest,
      (abs (B - A) <=? abs (C - B))%float = true ->
      P C (R :: rest) (reduce C (R :: rest)) ->
      P C (B :: A :: R :: rest)
        (mkInterval Full B A :: (reduce C (R :: rest)).1,
         (reduce C (R :: rest)).2)) ->
  forall C below, P C below (reduce C below).
Proof.
  intros H0 H1 Hno Hpart Hfull C below.
  remember (length below) as m eqn:Hm. revert below Hm.
  induction m as [m IH] using lt_wf_ind. intros below Hm.
  destruct below as [|B [|A rest]]; [apply H0 | apply H1 |].
  cbn [reduce]. destruct (abs (B - A) <=? abs (C - B))%float eqn:Hc.
  - destruct rest as [|R rest]; [by apply Hpart|].
    assert (length (R :: rest) < m)%nat as Hlt by (subst m; simpl; lia).
    pose proof (Hfull C B A R rest Hc (IH _ Hlt (R :: rest) eq_refl)) as HP.
    by destruct (reduce C (R :: rest)).
  - by apply Hno.
Qed.

Lemma reduce_count (C : float) (below : list float) :
  (total_used (reduce C below).1 + length (reduce C below).2
   = S (length below))%nat.
Proof.
  apply (reduce_cases (fun C below r =>
           (total_used r.1 + length r.2 = S (length below))%nat));
    clear; intros; simpl in *; try done.
  unfold total_used in *. simpl. lia.
Qed.

Lemma reduce_top (C : float) (below : list float) :
  exists tl, (reduce C below).2 = C :: tl.
Proof.
  apply (reduce_cases (fun C below r => exists tl, r.2 = C :: tl));
    clear; intros; simpl in *; eauto.
Qed.

Lemma reduce_points (C : float) (below : list float) :
  (forall iv, iv ∈ (reduce C below).1 -> pt_p iv ∈ below /\ pt_q iv ∈ below) /\
  (forall x, x ∈ (reduce C below).2 -> x ∈ C :: below).
Proof.
  apply (reduce_cases (fun C below r =>
           (forall iv, iv ∈ r.1 -> pt_p iv ∈ below /\ pt_q iv ∈ below) /\
           (forall x, x ∈ r.2 -> x ∈ C :: below)));
    clear; intros; simpl in *.
  - split; [by intros ? ?%elem_of_nil|done].
  - split; [by intros ? ?%elem_of_nil|done].
  - split; [by intros ? ?%elem_of_nil|done].
  - split.
    + intros iv ->%list_elem_of_singleton. simpl. elems.
    + elems.
  - destruct H0 as [Hiv Hstk]. split.
    + intros iv [->|Hin]%elem_of_cons; simpl; [elems|].
      destruct (Hiv _ Hin). elems.
    + intros x Hin. specialize (Hstk _ Hin). elems.
Qed.

Lemma scan_count (input stk : list float) :
  (total_used (scan input stk).1 + length (scan input stk).2
   = length input + length stk)%nat.
Proof.
  revert stk. induction input as [|x xs IH]; intros stk; simpl; [done|].
  pose proof (reduce_count x stk) as Hr.
  destruct (reduce x stk) as [ivs stk1]. specialize (IH stk1).
  destruct (scan xs stk1) as [ivs' stk2]. simpl in *.
  rewrite total_used_app. lia.
Qed.

Lemma scan_nonempty (input stk : list float) :
  input <> [] -> (1 <= length (scan input stk).2)%nat.
Proof.
  revert stk. induction input as [|x xs IH]; intros stk Hne; [done|].
  simpl. destruct (reduce_top x stk) as [tl Htl].
  destruct (reduce x stk) as [ivs stk1]. simpl in Htl. subst stk1.
  destruct xs as [|y ys]; [simpl; lia|].
  specialize (IH (x :: tl) ltac:(done)).
  by destruct (scan (y :: ys) (x :: tl)).
Qed.

Lemma scan_points (input stk : list float) :
  (forall iv, iv ∈ (scan input stk).1 ->
     pt_p iv ∈ input ++ stk /\ pt_q iv ∈ input ++ stk) /\
  (forall x, x ∈ (scan input stk).2 -> x ∈ input ++ stk).
Proof.
  revert stk. induction input as [|x xs IH]; intros stk; simpl.
  { split; [by intros ? ?%elem_of_nil|done]. }
  destruct (reduce_points x stk) as [Hiv1 Hstk1].
  destruct (reduce x stk) as [ivs stk1].
  destruct (IH stk1) as [Hiv2 Hstk2].
  destruct (scan xs stk1) as [ivs' stk2]. simpl in *.
  assert (Hsub : forall y, y ∈ xs ++ stk1 -> y ∈ x :: xs ++ stk).
  { intros y [?|?%Hstk1]%elem_of_app; elems. }
  split.
  - intros iv [Hin|Hin]%elem_of_app.
    + destruct (Hiv1 _ Hin). elems.
    + destruct (Hiv2 _ Hin). split; by apply Hsub.
  - intros y Hin. by apply Hsub, Hstk2.
Qed.

Lemma residuals_count (live : list float) :
  total_used (residuals live) = (length live - 1)%nat.
Proof.
  induction live as [|p [|q live] IH]; [done..|].
  change (residuals (p :: q :: live))
    with (mkInterval Residual p q :: residuals (q :: live)).
  unfold total_used in *. cbn [sum_list_with]. rewrite IH. simpl. lia.
Qed.

Lemma residuals_points (live : list float) :
  forall iv, iv ∈ residuals live -> pt_p iv ∈ live /\ pt_q iv ∈ live.
Proof.
  induction live as [|p [|q live] IH]; intros iv Hin;
    [by apply elem_of_nil in Hin..|].
  change (residuals (p :: q :: live))
    with (mkInterval Residual p q :: residuals (q :: live)) in Hin.
  apply elem_of_cons in Hin as [->|Hin]; simpl; [elems|].
  destruct (IH _ Hin). elems.
Qed.

(** Every interval takes its points from the input, and together the
    intervals account for the [n - 1] steps between the [n] points. *)
Lemma intervals_count (input : list float) :
  input <> [] -> total_used (intervals input) = (length input - 1)%nat.
Proof.
  intros Hne. unfold intervals.
  pose proof (scan_count input []) as Hc.
  pose proof (scan_nonempty input [] Hne) as Hs.
  destruct (scan input []) as [ivs stk]. simpl in *.
  rewrite total_used_app, residuals_count, length_reverse. lia.
Qed.

Lemma intervals_points (input : list float) :
  forall iv, iv ∈ intervals input -> pt_p iv ∈ input /\ pt_q iv ∈ input.
Proof.
  intros iv. unfold intervals.
  destruct (scan_points input []) as [Hiv Hstk].
  destruct (scan input []) as [ivs stk]. simpl in *.
  rewrite app_nil_r in Hiv, Hstk.
  intros [Hin|Hin]%elem_of_app; [by apply Hiv|].
  destruct (residuals_points _ _ Hin) as [Hp Hq].
  rewrite elem_of_reverse in Hp, Hq. split; by apply Hstk.
Qed.

Lemma emitted_filter (cfg : config) (ivs : list interval) :
  emitted cfg ivs = cycle_of cfg <$> List.filter counted ivs.
Proof.
  induction ivs as [|iv ivs IH]; simpl; [done|].
  destruct (counted iv); simpl; by rewrite IH.
Qed.

Lemma emitted_length (cfg : config) (ivs : list interval) :
  (length (emitted cfg ivs) <= total_used ivs)%nat.
Proof.
  induction ivs as [|iv ivs IH]; simpl; [done|].
  unfold total_used in *. cbn [sum_list_with].
  assert (1 <= points_used (via iv))%nat by (destruct (via iv); simpl; lia).
  destruct (counted iv); simpl; lia.
Qed.

Lemma emitted_elem (cfg : config) (ivs : list interval) (c : cycle) :
  c ∈ emitted cfg ivs ->
  exists iv, iv ∈ ivs /\ counted iv = true /\ c = cycle_of cfg iv.
Proof.
  induction ivs as [|iv ivs IH]; simpl; [by intros ?%elem_of_nil|].
  destruct (counted iv) eqn:Hc.
  - intros [->|Hin]%elem_of_cons; [exists iv; elems|].
    destruct (IH Hin) as (iv' & ? & ? & ?). exists iv'. elems.
  - intros Hin. destruct (IH Hin) as (iv' & ? & ? & ?). exists iv'. elems.
Qed.

(** ** Inputs of fewer than two points *)

Lemma rainflow_empty (junk : nat -> float) (cfg : config) :
  rainflow [] junk cfg = Raises ValueError.
Proof. reflexivity. Qed.

Lemma rainflow_single (x : float) (junk : nat -> float) (cfg : config) :
  rainflow [x] junk cfg = Raises IndexError.
Proof. reflexivity. Qed.

(** [rainflow] returns exactly on the inputs of two points or more. *)
Lemma rainflow_returns (array_ext : list float) (junk : nat -> float)
    (cfg : config) (out : list (list float)) :
  rainflow array_ext junk cfg = Returns out ->
  (2 <= length array_ext)%nat /\ out = table (cycles cfg array_ext).
Proof.
  intros H. destruct array_ext as [|x [|y l]].
  - by rewrite rainflow_empty in H.
  - by rewrite rainflow_single in H.
  - split; [simpl; lia|].
    rewrite (rainflow_cycles cfg (length (x :: y :: l))) in H;
      [by injection H|simpl; lia|done].
Qed.

(** ** The claims *)

(** C1, as stated, fails on the input [0, 1, 3]: on entry to the while
    loop for the third point the stack holds the three points A = 0,
    B = 1, C = 3 with |A - B| = 1 <= |B - C| = 2, and the body takes the
    branch [j == 2]: the interval is recorded with the partial count 0.5
    and only A leaves the stack, which then holds B and C ([j] is 1, not
    0).  B is still there at the end: it is an endpoint of the residual
    (1, 3). *)
Lemma C1_counterexample :
  exists s2 s s',
    main_loop 2 [0; 1; 3]%float no_junk defaults = Returns s2 /\
    setitem (a s2) (j s2 + 1) 3%float = Returns (a s) /\
    j s = j s2 + 1 /\ j s = 2 /\ po s = po s2 /\
    array_out s = array_out s2 /\
    collapse_cond s = Returns true /\
    collapse_body defaults s = Returns s' /\
    j s' = 1 /\ j s' <> j s - 2 /\
    take 2 (a s') = [1; 3]%float /\
    array_out s' !! 3%nat = Some [0.5; 0]%float /\
    rainflow [0; 1; 3]%float no_junk defaults
    = Returns (table [mkCycle 1 0.5 1 0.5 1;
                      mkCycle 2 2 (2 * 1e16 / (1e16 - 2)) 0.5
                        (2 * 1e16 / (1e16 - 2))]%float).
Proof.
  exists (mkLocals [0; 1; 0]%float 1 2 0 (padded 3 [])),
    (mkLocals [0; 1; 3]%float 2 3 0 (padded 3 [])),
    (mkLocals [1; 3; 3]%float 1 3 1 (padded 3 [mkCycle 1 0.5 1 0.5 1]%float)).
  repeat split; try (vm_compute; reflexivity).
  vm_compute. discriminate.
Qed.

(** C1, amended.  For a state whose stack ends in A, B, C above the
    points [pre], with room for one more column: the loop condition is
    |B - A| <= |C - B|.  When it fails the loop ends and leaves the
    state as it is, and the main loop goes on to push the next point.
    When it holds and the stack has more than three points, the
    interval (A, B) is recorded with count 1.0 if its range is positive,
    A and B leave the stack (C takes the place of A, [j] drops by two)
    and the loop goes on from that state.  When it holds and the stack
    has exactly three points, the interval is recorded with count
    [uc_mult] if its range is positive, only A leaves the stack and the
    loop goes on from the stack B, C. *)
Theorem C1_collapse_rule (cfg : config) (n fuel : nat)
    (pre dead : list float) (A B C : float) (pp : Z) (cs : list cycle) :
  (length cs < n - 1)%nat ->
  let s := mkLocals (pre ++ A :: B :: C :: dead)
             (Z.of_nat (length pre) + 2) pp
             (Z.of_nat (length cs)) (padded n cs) in
  let closes := (abs (B - A) <=? abs (C - B))%float in
  let recorded (k : path) :=
    cs ++ (if (0 <? abs (B - A))%float
           then [cycle_of cfg (mkInterval k B A)] else []) in
  collapse_cond s = Returns closes /\
  (closes = false -> collapse_loop fuel cfg s = Returns s) /\
  (closes = true -> pre <> [] ->
   collapse_loop (S fuel) cfg s
   = collapse_loop fuel cfg
       (mkLocals (pre ++ C :: B :: C :: dead) (Z.of_nat (length pre)) pp
          (Z.of_nat (length (recorded Full))) (padded n (recorded Full)))) /\
  (closes = true -> pre = [] ->
   collapse_loop (S fuel) cfg s
   = collapse_loop fuel cfg
       (mkLocals (B :: C :: C :: dead) 1 pp
          (Z.of_nat (length (recorded Partial)))
          (padded n (recorded Partial)))).
Proof.
  intros Hroom s closes recorded.
  assert (Hcond : collapse_cond s = Returns closes)
    by (by apply collapse_cond_three).
  split; [done|]. split; [|split].
  - intros Hc. destruct fuel; cbn [collapse_loop]; by rewrite Hcond, Hc.
  - intros Hc Hpre. cbn [collapse_loop]. rewrite Hcond, Hc. cbn [bind].
    unfold s. rewrite (collapse_body_full cfg n) by (done || lia).
    cbn [bind]. by replace (Z.of_nat (length pre) + 2 - 2)
                  with (Z.of_nat (length pre)) by lia.
  - intros Hc ->. cbn [collapse_loop]. rewrite Hcond, Hc. cbn [bind].
    unfold s. cbn [app length]. change (Z.of_nat 0 + 2) with 2.
    by rewrite (collapse_body_partial cfg n).
Qed.

(** The rule at the stack 0, 1, 3 of the input [0, 1, 3]. *)
Lemma C1_collapse_rule_witness :
  (length (@nil cycle) < 3 - 1)%nat /\
  collapse_cond (mkLocals [0; 1; 3]%float 2 3 0 (padded 3 []))
  = Returns true.
Proof.
  split; [vm_compute; lia|].
  exact (proj1 (C1_collapse_rule defaults 3 1 [] [] 0 1 3 3 []
                  ltac:(vm_compute; lia))).
Defined.

(** C2, as stated, fails: with [l_ult = 1] the input [0, 2] has the
    single interval of mean 1 = ultimate load, and [rainflow] returns
    its column, with infinity in both Goodman rows. *)
Lemma C2_counterexample :
  (abs ((0 + 2) / 2) =? 1)%float = true /\
  rainflow [0; 2]%float no_junk (mkConfig 0 1 0.5)
  = Returns [[2]; [1]; [infinity]; [0.5]; [infinity]]%float.
Proof. split; vm_compute; reflexivity. Qed.

(** C2, amended.  On an input of two points or more [rainflow] raises
    nothing, whatever the means are: it returns its table, and a column
    whose mean has |mean| == l_ult holds an infinity or a NaN in both
    Goodman rows. *)
Theorem C2_degenerate_margin_not_reported (array_ext : list float)
    (junk : nat -> float) (cfg : config) :
  (2 <= length array_ext)%nat ->
  exists cs,
    rainflow array_ext junk cfg = Returns (table cs) /\
    forall c, c ∈ cs ->
      (abs (mean c) =? l_ult cfg)%float = true ->
      is_inf_or_nan (adj_range c) = true /\
      is_inf_or_nan (adj_zero_mean_range c) = true.
Proof.
  intros Hn. exists (cycles cfg array_ext). split.
  - by apply (rainflow_cycles cfg (length array_ext)).
  - intros c Hc Hm. apply emitted_elem in Hc as (iv & _ & _ & ->).
    simpl in *. split; by apply div_degenerate.
Qed.

(** The input [0, 2] with [l_ult = 1]. *)
Lemma C2_degenerate_margin_not_reported_witness :
  (2 <= length [0; 2]%float)%nat /\
  exists cs,
    rainflow [0; 2]%float no_junk (mkConfig 0 1 0.5) = Returns (table cs) /\
    forall c, c ∈ cs ->
      (abs (mean c) =? 1)%float = true ->
      is_inf_or_nan (adj_range c) = true /\
      is_inf_or_nan (adj_zero_mean_range c) = true.
Proof.
  split; [vm_compute; lia|].
  exact (C2_degenerate_margin_not_reported [0; 2]%float no_junk
           (mkConfig 0 1 0.5) ltac:(vm_compute; lia)).
Defined.

(** C3: what the source does on the inputs of fewer than two points.
    The empty array raises [ValueError] at [np.zeros((5, -1))]; an array
    of one point raises [IndexError] at the read [a[j - 2]] of the loop
    condition, [j] being 0 and [&] evaluating both its operands. *)
Theorem C3_short_input_raises :
  (forall junk cfg, rainflow [] junk cfg = Raises ValueError) /\
  (forall x junk cfg, rainflow [x] junk cfg = Raises IndexError).
Proof. split; reflexivity. Qed.

(** C4, as stated, fails: on the demonstration array the source emits
    six columns, not four. *)
Lemma C4_counterexample :
  exists out,
    rainflow demo no_junk defaults = Returns out /\
    n_cycle out = 6%nat /\ n_cycle out <> 4%nat.
Proof.
  eexists. split; [vm_compute; reflexivity|]. split; [reflexivity|].
  vm_compute. discriminate.
Qed.

(** C4, amended.  On the demonstration array with the default keyword
    arguments the source emits six columns, two of count 1.0 and four of
    count 0.5, in this order; their counts sum to 4. *)
Theorem C4_demo_cycles (junk : nat -> float) :
  exists adj adj0,
    rainflow demo junk defaults
    = Returns [[5; 2; 1; 7; 6; 4]; [0.5; 3; 0.5; 1.5; 2; 1]; adj;
               [0.5; 1; 1; 0.5; 0.5; 0.5]; adj0]%float /\
    n_cycle [[5; 2; 1; 7; 6; 4]; [0.5; 3; 0.5; 1.5; 2; 1]; adj;
             [0.5; 1; 1; 0.5; 0.5; 0.5]; adj0]%float = 6%nat /\
    weight_sum [[5; 2; 1; 7; 6; 4]; [0.5; 3; 0.5; 1.5; 2; 1]; adj;
                [0.5; 1; 1; 0.5; 0.5; 0.5]; adj0]%float = 4%float.
Proof.
  do 2 eexists. split; [|split].
  - rewrite (rainflow_cycles defaults (length demo))
      by (vm_compute; lia || done).
    vm_compute. reflexivity.
  - reflexivity.
  - vm_compute. reflexivity.
Qed.

(** C5, as stated, fails on the input [0, 1]: no interval is discarded,
    the single residual interval is emitted with count 0.5, and
    (2 - 1) - 0 = 1. *)
Lemma C5_counterexample :
  exists out,
    rainflow [0; 1]%float no_junk defaults = Returns out /\
    discarded [0; 1]%float = [] /\
    weight_sum out = 0.5%float /\
    (weight_sum out =? 1)%float = false.
Proof. eexists. repeat split; vm_compute; reflexivity. Qed.

(** C5, amended.  On an input of [n >= 2] points the source considers a
    list of intervals, each along one of its three paths; it emits those
    of positive range, with count 1.0 along the full-range path and
    [uc_mult] along the two others, and drops the rest.  Counting two
    for an interval of the full-range path and one for any other, the
    emitted and the dropped intervals together count [n - 1]. *)
Theorem C5_interval_accounting (array_ext : list float)
    (junk : nat -> float) (cfg : config) :
  (2 <= length array_ext)%nat ->
  exists ivs out,
    rainflow array_ext junk cfg = Returns out /\
    out = table (cycle_of cfg <$> List.filter counted ivs) /\
    out !! 3%nat
    = Some ((fun iv => weight cfg (via iv)) <$> List.filter counted ivs) /\
    discarded array_ext = List.filter (fun iv => negb (counted iv)) ivs /\
    (total_used (List.filter counted ivs)
     + total_used (List.filter (fun iv => negb (counted iv)) ivs)
     = length array_ext - 1)%nat.
Proof.
  intros Hn. exists (intervals array_ext). eexists.
  split; [by apply (rainflow_cycles cfg (length array_ext))|].
  unfold cycles. rewrite emitted_filter. split; [done|]. split; [|split].
  - simpl. f_equal. by rewrite <- list_fmap_compose.
  - done.
  - rewrite <- (intervals_count array_ext)
      by (destruct array_ext; [simpl in Hn; lia|done]).
    generalize (intervals array_ext) as ivs. clear. intros ivs.
    induction ivs as [|iv ivs IH]; [done|].
    unfold total_used in *. simpl.
    destruct (counted iv); simpl; lia.
Qed.

(** The input [0, 1]. *)
Lemma C5_interval_accounting_witness :
  (2 <= length [0; 1]%float)%nat /\
  exists ivs out,
    rainflow [0; 1]%float no_junk defaults = Returns out /\
    out = table (cycle_of defaults <$> List.filter counted ivs) /\
    out !! 3%nat
    = Some ((fun iv => weight defaults (via iv)) <$> List.filter counted ivs) /\
    discarded [0; 1]%float = List.filter (fun iv => negb (counted iv)) ivs /\
    (total_used (List.filter counted ivs)
     + total_used (List.filter (fun iv => negb (counted iv)) ivs)
     = length [0; 1]%float - 1)%nat.
Proof.
  split; [vm_compute; lia|].
  exact (C5_interval_accounting [0; 1]%float no_junk defaults
           ltac:(vm_compute; lia)).
Defined.

(** C6: every column of the table [rainflow] returns comes from one of
    the intervals of positive range that the three paths consider, with
    endpoints p and q taken from the input, and holds |p - q|,
    (p + q) / 2, the two Goodman ranges computed from these and the
    count of the path. *)
Theorem C6_cycle_formulas (array_ext : list float) (junk : nat -> float)
    (cfg : config) (out : list (list float)) :
  rainflow array_ext junk cfg = Returns out ->
  exists ivs : list interval,
    ivs = List.filter counted (intervals array_ext) /\
    (forall iv, iv ∈ ivs -> pt_p iv ∈ array_ext /\ pt_q iv ∈ array_ext) /\
    out =
    [ (fun iv => abs (pt_p iv - pt_q iv)) <$> ivs;
      (fun iv => (pt_p iv + pt_q iv) / 2) <$> ivs;
      (fun iv => abs (pt_p iv - pt_q iv) * (l_ult cfg - abs (flm cfg))
                 / (l_ult cfg - abs ((pt_p iv + pt_q iv) / 2))) <$> ivs;
      (fun iv => match via iv with
                 | Full => 1
                 | Partial | Residual => uc_mult cfg
                 end) <$> ivs;
      (fun iv => abs (pt_p iv - pt_q iv) * l_ult cfg
                 / (l_ult cfg - abs ((pt_p iv + pt_q iv) / 2))) <$> ivs
    ]%float.
Proof.
  intros [Hn ->]%rainflow_returns.
  exists (List.filter counted (intervals array_ext)). split; [done|]. split.
  - intros iv [Hin _]%list_elem_of_In%filter_In.
    by apply intervals_points, list_elem_of_In.
  - unfold cycles, table. rewrite emitted_filter.
    by rewrite <- !list_fmap_compose.
Qed.

(** The input [0, 1, 3]. *)
Lemma C6_cycle_formulas_witness :
  rainflow [0; 1; 3]%float no_junk defaults
  = Returns (table [mkCycle 1 0.5 1 0.5 1;
                    mkCycle 2 2 (2 * 1e16 / (1e16 - 2)) 0.5
                      (2 * 1e16 / (1e16 - 2))]%float) /\
  exists ivs : list interval,
    ivs = List.filter counted (intervals [0; 1; 3]%float) /\
    (forall iv, iv ∈ ivs ->
       pt_p iv ∈ [0; 1; 3]%float /\ pt_q iv ∈ [0; 1; 3]%float) /\
    table [mkCycle 1 0.5 1 0.5 1;
           mkCycle 2 2 (2 * 1e16 / (1e16 - 2)) 0.5
             (2 * 1e16 / (1e16 - 2))]%float =
    [ (fun iv => abs (pt_p iv - pt_q iv)) <$> ivs;
      (fun iv => (pt_p iv + pt_q iv) / 2) <$> ivs;
      (fun iv => abs (pt_p iv - pt_q iv)
                 * (l_ult defaults - abs (flm defaults))
                 / (l_ult defaults - abs ((pt_p iv + pt_q iv) / 2))) <$> ivs;
      (fun iv => match via iv with
                 | Full => 1
                 | Partial | Residual => uc_mult defaults
                 end) <$> ivs;
      (fun iv => abs (pt_p iv - pt_q iv) * l_ult defaults
                 / (l_ult defaults - abs ((pt_p iv + pt_q iv) / 2))) <$> ivs
    ]%float.
Proof.
  split; [vm_compute; reflexivity|].
  exact (C6_cycle_formulas [0; 1; 3]%float no_junk defaults _
           ltac:(vm_compute; reflexivity)).
Defined.

(** C7: every range in the table [rainflow] returns (row 0) is
    positive: it is at least 0 and it is not equal to 0.  The guard
    [lrange > 0] stands in each of the three emission paths. *)
Theorem C7_ranges_positive (array_ext : list float) (junk : nat -> float)
    (cfg : config) (out : list (list float)) (row : list float) (r : float) :
  rainflow array_ext junk cfg = Returns out ->
  out !! 0%nat = Some row ->
  r ∈ row ->
  (0 <=? r)%float = true /\ (r =? 0)%float = false /\ (0 <? r)%float = true.
Proof.
  intros [Hn ->]%rainflow_returns [= <-] Hr.
  apply list_elem_of_fmap in Hr as (c & -> & Hc).
  apply emitted_elem in Hc as (iv & _ & Hpos & ->).
  unfold counted in Hpos. simpl.
  destruct (positive_range _ Hpos). done.
Qed.

(** The range 1 of the first column on the input [0, 1, 3]. *)
Lemma C7_ranges_positive_witness :
  rainflow [0; 1; 3]%float no_junk defaults
  = Returns (table [mkCycle 1 0.5 1 0.5 1;
                    mkCycle 2 2 (2 * 1e16 / (1e16 - 2)) 0.5
                      (2 * 1e16 / (1e16 - 2))]%float) /\
  table [mkCycle 1 0.5 1 0.5 1;
         mkCycle 2 2 (2 * 1e16 / (1e16 - 2)) 0.5
           (2 * 1e16 / (1e16 - 2))]%float !! 0%nat = Some [1; 2]%float /\
  1%float ∈ [1; 2]%float /\
  (0 <=? 1)%float = true /\ (1 =? 0)%float = false /\ (0 <? 1)%float = true.
Proof.
  split; [vm_compute; reflexivity|].
  split; [reflexivity|]. split; [apply list_elem_of_here|].
  exact (C7_ranges_positive [0; 1; 3]%float no_junk defaults _
           [1; 2]%float 1%float
           ltac:(vm_compute; reflexivity) eq_refl
           (list_elem_of_here _ _)).
Defined.

(** C8, as stated, fails on the input [0, 10, 1, 9, 2]: no interval
    closes, and after the fifth point the stack holds all five. *)
Lemma C8_counterexample :
  exists s,
    main_loop 5 [0; 10; 1; 9; 2]%float no_junk defaults = Returns s /\
    j s + 1 = 5 /\
    take 5 (a s) = [0; 10; 1; 9; 2]%float /\
    ~ (j s + 1 <= 3).
Proof.
  eexists. split; [vm_compute; reflexivity|].
  repeat split. vm_compute. by intros H.
Qed.

(** C8, amended.  After the first [m] iterations of the main loop (each
    a push and the collapse loop that follows), the stack [a[0..j]]
    holds at least one point and at most [m], all of them among the
    first [m] points of the input: its size is bounded by the number of
    points pushed, not by 3. *)
Theorem C8_stack_bound (array_ext : list float) (junk : nat -> float)
    (cfg : config) (m : nat) :
  (2 <= length array_ext)%nat ->
  (1 <= m <= length array_ext)%nat ->
  exists s,
    main_loop m array_ext junk cfg = Returns s /\
    1 <= j s + 1 <= Z.of_nat m /\
    (forall x, x ∈ take (Z.to_nat (j s + 1)) (a s) -> x ∈ take m array_ext).
Proof.
  intros Hn [Hm1 Hm2].
  destruct (main_loop_scan cfg (length array_ext) Hn array_ext eq_refl junk m
              Hm2)
    as (s & Hs & Hrepr).
  exists s. split; [done|].
  assert (Hne : take m array_ext <> []).
  { destruct array_ext; [simpl in Hn; lia|]. by destruct m; [lia|]. }
  pose proof (scan_nonempty (take m array_ext) [] Hne) as Hlen.
  destruct (scan_points (take m array_ext) []) as [_ Hstk].
  destruct (scan (take m array_ext) []) as [ivs stk]. cbn [fst snd] in *.
  destruct Hrepr as ([dead Hlive] & _ & Hj & _ & _ & _ & Hroom & _).
  split; [lia|].
  intros x. rewrite Hj, Hlive.
  replace (Z.to_nat (Z.of_nat (length stk) - 1 + 1))
    with (length (reverse stk)) by (rewrite length_reverse; lia).
  rewrite take_app_length, elem_of_reverse. intros Hx%Hstk.
  by rewrite app_nil_r in Hx.
Qed.

(** The input [0, 10, 1, 9, 2] after its five pushes. *)
Lemma C8_stack_bound_witness :
  (2 <= length [0; 10; 1; 9; 2]%float)%nat /\
  (1 <= 5 <= length [0; 10; 1; 9; 2]%float)%nat /\
  exists s,
    main_loop 5 [0; 10; 1; 9; 2]%float no_junk defaults = Returns s /\
    1 <= j s + 1 <= Z.of_nat 5 /\
    (forall x, x ∈ take (Z.to_nat (j s + 1)) (a s) ->
               x ∈ take 5 [0; 10; 1; 9; 2]%float).
Proof.
  split; [vm_compute; lia|]. split; [vm_compute; lia|].
  exact (C8_stack_bound [0; 10; 1; 9; 2]%float no_junk defaults 5
           ltac:(vm_compute; lia) ltac:(vm_compute; lia)).
Defined.

(** C9, as stated, fails on a signal given in percent: its mean is 50
    and [mean_soc] is set to 0.5; the range 20 of its cycle is stored as
    0.2 and the cycle mean 50 as 0.5, the method taking no scale factor
    from its caller. *)
Lemma C9_counterexample :
  exists self' out,
    rainflow_process seq_mean stable_argsort percent_signal no_junk
    = Returns self' /\
    seq_mean (series percent_signal) = 50%float /\
    mean_soc self' = 0.5%float /\
    (mean_soc self' =? seq_mean (series percent_signal))%float = false /\
    rainflow [60; 40]%float no_junk defaults = Returns out /\
    out !! 0%nat = Some [20]%float /\
    out !! 1%nat = Some [50]%float /\
    arr_dod self' = [20 / 100]%float /\
    arr_soc_mean self' = [0.5]%float /\
    arr_n self' = [0.5]%float.
Proof. do 2 eexists. repeat split; vm_compute; reflexivity. Qed.

Ltac bind_inv H :=
  match type of H with
  | bind ?m _ = Returns _ =>
      let E := fresh "E" in
      destruct m eqn:E; cbn [bind] in H; [|discriminate..]
  end.

(** C9, amended.  [rainflow_process] sets [mean_soc] to the mean of the
    full input series divided by 100.  It sorts the extrema by
    position, runs [rainflow] on their values, sorts the columns by
    range, and stores the ranges and the cycle means divided by 100 and
    the counts as they are: the rescaling from percent to fraction is
    the method's own, by the fixed factor 1/100. *)
Theorem C9_fixed_percent_scaling (np_mean : list float -> float)
    (argsort : list float -> list nat) (self self' : CycleCounter)
    (junk : nat -> float) :
  rainflow_process np_mean argsort self junk = Returns self' ->
  mean_soc self' = (np_mean (series self) / 100)%float /\
  exists pts out row0 sorted r0 r1 r3,
    take_at (min_points self ++ max_points self)
      (argsort (fst <$> (min_points self ++ max_points self)))
    = Returns pts /\
    rainflow (snd <$> pts) junk defaults = Returns out /\
    out !! 0%nat = Some row0 /\
    cols_at out (argsort row0) = Returns sorted /\
    sorted !! 0%nat = Some r0 /\
    sorted !! 1%nat = Some r1 /\
    sorted !! 3%nat = Some r3 /\
    arr_dod self' = (fun x => x / 100)%float <$> r0 /\
    arr_n self' = r3 /\
    arr_soc_mean self' = (fun x => x / 100)%float <$> r1.
Proof.
  unfold rainflow_process, getrow. intros H.
  bind_inv H. bind_inv H.
  destruct (x0 !! 0%nat) as [row0|] eqn:E1; cbn [bind] in H; [|discriminate].
  bind_inv H.
  destruct (x1 !! 0%nat) as [r0|] eqn:E3; cbn [bind] in H; [|discriminate].
  destruct (x1 !! 3%nat) as [r3|] eqn:E4; cbn [bind] in H; [|discriminate].
  destruct (x1 !! 1%nat) as [r1|] eqn:E5; cbn [bind] in H; [|discriminate].
  injection H as <-. cbn [mean_soc arr_dod arr_n arr_soc_mean].
  split; [done|]. exists x, x0, row0, x1, r0, r1, r3. by repeat split.
Qed.

(** The signal in percent, with the stand-ins for numpy. *)
Lemma C9_fixed_percent_scaling_witness :
  rainflow_process seq_mean stable_argsort percent_signal no_junk
  = Returns (mkCycleCounter [40; 60; 40; 60] [(2, 40)] [(1, 60)]
               0.5 [20 / 100] [0.5] [0.5])%float /\
  (0.5 = seq_mean (series percent_signal) / 100)%float.
Proof.
  split; [vm_compute; reflexivity|].
  exact (proj1 (C9_fixed_percent_scaling seq_mean stable_argsort
                  percent_signal _ no_junk ltac:(vm_compute; reflexivity))).
Defined.

(** On an input of [n >= 2] points every write into the 5 x (n - 1)
    buffer is within bounds (an index outside would raise), and the
    array returned has five rows of the same length, at most [n - 1]. *)
Lemma rainflow_output_bound (array_ext : list float) (junk : nat -> float)
    (cfg : config) :
  (2 <= length array_ext)%nat ->
  exists out,
    rainflow array_ext junk cfg = Returns out /\
    length out = 5%nat /\
    (forall row, row ∈ out -> length row = n_cycle out) /\
    (n_cycle out <= length array_ext - 1)%nat.
Proof.
  intros Hn. exists (table (cycles cfg array_ext)).
  split; [by apply (rainflow_cycles cfg (length array_ext))|].
  split; [done|]. split.
  - intros row Hrow. unfold table in *. simpl.
    repeat (apply elem_of_cons in Hrow as [->|Hrow];
            [by rewrite !length_fmap|]).
    by apply elem_of_nil in Hrow.
  - simpl. rewrite length_fmap. unfold cycles.
    etrans; [apply emitted_length|].
    rewrite intervals_count; [done|].
    destruct array_ext; [simpl in Hn; lia|done].
Qed.

(** C10: an array of a single point.  The 5 x 0 buffer is allocated,
    nothing is written to it, and the call raises [IndexError] at the
    read [a[j - 2]] of the loop condition: no array is returned. *)
Theorem C10_single_point_raises :
  forall (x : float) (junk : nat -> float) (cfg : config),
    initial [x] junk
    = Returns (mkLocals [junk 0%nat] (-1) 0 0 [[]; []; []; []; []]) /\
    collapse_cond (mkLocals [x] 0 1 0 [[]; []; []; []; []])
    = Raises IndexError /\
    rainflow [x] junk cfg = Raises IndexError.
Proof. intros. repeat split; reflexivity. Qed.

(** ** Further properties of [rainflow] *)

(** A difference [c - c] is a zero or a NaN: it is never positive. *)
Lemma sub_self_not_positive (c : float) : (0 <? abs (c - c))%float = false.
Proof.
  rewrite FloatAxioms.ltb_spec, FloatAxioms.abs_spec, FloatAxioms.sub_spec.
  rewrite Prim2SF_zero. unfold SF64sub, SFltb.
  destruct (Prim2SF c) as [[]|[]| |[] m e]; try reflexivity;
    unfold SFsub; rewrite Z.sub_diag; reflexivity.
Qed.

Lemma emitted_none (cfg : config) (ivs : list interval) :
  (forall iv, iv ∈ ivs -> counted iv = false) -> emitted cfg ivs = [].
Proof.
  induction ivs as [|iv ivs IH]; intros H; simpl; [done|].
  rewrite (H iv) by apply list_elem_of_here.
  apply IH. intros iv' Hin. apply H. by apply list_elem_of_further.
Qed.

Lemma scan_app (xs ys stk : list float) :
  scan (xs ++ ys) stk
  = ((scan xs stk).1 ++ (scan ys (scan xs stk).2).1,
     (scan ys (scan xs stk).2).2).
Proof.
  revert stk. induction xs as [|x xs IH]; intros stk; simpl.
  - by destruct (scan ys stk).
  - destruct (reduce x stk) as [ivs stk1]. rewrite IH.
    destruct (scan xs stk1) as [ivs1 stk2]. simpl.
    destruct (scan ys stk2) as [ivs2 stk3]. simpl.
    by rewrite app_assoc.
Qed.

Lemma reduce_settled (C : float) (below : list float) :
  settled below -> settled (reduce C below).2.
Proof.
  apply (reduce_cases (fun C below r => settled below -> settled r.2));
    clear; intros; simpl in *; try done.
  apply H0. tauto.
Qed.

Lemma scan_settled (input stk : list float) :
  settled stk -> settled (scan input stk).2.
Proof.
  revert stk. induction input as [|x xs IH]; intros stk H; simpl; [done|].
  pose proof (reduce_settled x stk H) as H1.
  destruct (reduce x stk) as [ivs stk1]. specialize (IH stk1 H1).
  by destruct (scan xs stk1).
Qed.

Lemma settled_middle (l1 l2 : list float) (A B C : float) :
  settled (l1 ++ C :: B :: A :: l2) -> closes A B C = false.
Proof. induction l1 as [|x l1 IH]; simpl; tauto. Qed.

Lemma reduce_two (C : float) (below : list float) :
  below <> [] -> (2 <= length (reduce C below).2)%nat.
Proof.
  apply (reduce_cases (fun C below r => below <> [] -> (2 <= length r.2)%nat));
    clear; intros; simpl in *; try done; try lia.
  by apply H0.
Qed.

Lemma scan_two (input stk : list float) :
  input <> [] -> stk <> [] -> (2 <= length (scan input stk).2)%nat.
Proof.
  revert stk. induction input as [|x xs IH]; intros stk Hin Hstk; [done|].
  simpl. pose proof (reduce_two x stk Hstk) as H2.
  destruct (reduce x stk) as [ivs stk1]. simpl in H2.
  destruct xs as [|y ys]; [done|].
  assert (stk1 <> []) as Hne by (destruct stk1; [simpl in H2; lia|done]).
  specialize (IH stk1 ltac:(done) Hne).
  by destruct (scan (y :: ys) stk1).
Qed.

(** Whatever [np.empty] left in the temporary array, [rainflow] gives
    the same result (a table or an exception). *)
Lemma rainflow_junk (array_ext : list float)
    (junk1 junk2 : nat -> float) (cfg : config) :
  rainflow array_ext junk1 cfg = rainflow array_ext junk2 cfg.
Proof.
  destruct array_ext as [|x [|y l]]; [reflexivity..|].
  by rewrite !(rainflow_cycles cfg (length (x :: y :: l)))
    by (simpl; lia || done).
Qed.

(** For two points or more [rainflow] returns the table of the stack
    reduction: each point is pushed on a stack; while the three most
    recent points A, B, C have |B - A| <= |C - B| the interval (A, B)
    is taken off (B alone off a stack of three); what is left at the
    end gives the residual intervals, oldest first; the intervals of
    positive range are the columns, in this order. *)
Theorem rainflow_is_stack_reduction (array_ext : list float)
    (junk : nat -> float) (cfg : config) :
  (2 <= length array_ext)%nat ->
  rainflow array_ext junk cfg
  = Returns (table (emitted cfg (intervals array_ext))).
Proof. intros Hn. by apply (rainflow_cycles cfg (length array_ext)). Qed.

(** The demonstration array. *)
Lemma rainflow_is_stack_reduction_witness :
  (2 <= length demo)%nat /\
  rainflow demo no_junk defaults
  = Returns (table (emitted defaults (intervals demo))).
Proof.
  split; [vm_compute; lia|].
  exact (rainflow_is_stack_reduction demo no_junk defaults
           ltac:(vm_compute; lia)).
Defined.

(** The input [0, 1, 3]. *)
Lemma rainflow_output_bound_witness :
  (2 <= length [0; 1; 3]%float)%nat /\
  exists out,
    rainflow [0; 1; 3]%float no_junk defaults = Returns out /\
    length out = 5%nat /\
    (forall row, row ∈ out -> length row = n_cycle out) /\
    (n_cycle out <= length [0; 1; 3]%float - 1)%nat.
Proof.
  split; [vm_compute; lia|].
  exact (rainflow_output_bound [0; 1; 3]%float no_junk defaults
           ltac:(vm_compute; lia)).
Defined.

(** After two pushes or more, and the collapse loop of the last one, the
    stack [a[0..j]] holds at least two points, and no three consecutive
    points A, B, C of it pass the closing test |B - A| <= |C - B|: the
    ranges between the points left on the stack decrease. *)
Theorem main_loop_stack_settled (array_ext : list float)
    (junk : nat -> float) (cfg : config) (m : nat) :
  (2 <= m <= length array_ext)%nat ->
  exists s,
    main_loop m array_ext junk cfg = Returns s /\
    2 <= j s + 1 /\
    forall pre post A B C,
      take (Z.to_nat (j s + 1)) (a s) = pre ++ A :: B :: C :: post ->
      (abs (B - A) <=? abs (C - B))%float = false.
Proof.
  intros [Hm1 Hm2].
  destruct (main_loop_scan cfg (length array_ext) ltac:(lia) array_ext
              eq_refl junk m Hm2) as (s & Hs & Hrepr).
  exists s. split; [done|].
  assert (Hlen : (2 <= length (scan (take m array_ext) []).2)%nat).
  { destruct array_ext as [|x [|y l]]; [simpl in Hm2; lia..|].
    destruct m as [|[|m]]; [lia..|]. simpl take.
    change (x :: y :: take m l) with ([x] ++ y :: take m l).
    rewrite scan_app. cbn [snd]. by apply scan_two. }
  pose proof (scan_settled (take m array_ext) [] I) as Hset.
  destruct (scan (take m array_ext) []) as [ivs stk]. cbn [fst snd] in *.
  destruct Hrepr as ([dead Hlive] & _ & Hj & _).
  split; [lia|].
  intros pre post A B C. rewrite Hj, Hlive.
  replace (Z.to_nat (Z.of_nat (length stk) - 1 + 1))
    with (length (reverse stk)) by (rewrite length_reverse; lia).
  rewrite take_app_length. intros Hstk.
  apply (f_equal reverse) in Hstk. rewrite reverse_involutive in Hstk.
  rewrite reverse_app, !reverse_cons, <- !app_assoc in Hstk. simpl in Hstk.
  subst stk. by apply settled_middle in Hset.
Qed.

(** The input [0, 10, 1, 9, 2] after its five pushes. *)
Lemma main_loop_stack_settled_witness :
  (2 <= 5 <= length [0; 10; 1; 9; 2]%float)%nat /\
  exists s,
    main_loop 5 [0; 10; 1; 9; 2]%float no_junk defaults = Returns s /\
    2 <= j s + 1 /\
    forall pre post A B C,
      take (Z.to_nat (j s + 1)) (a s) = pre ++ A :: B :: C :: post ->
      (abs (B - A) <=? abs (C - B))%float = false.
Proof.
  split; [vm_compute; lia|].
  exact (main_loop_stack_settled [0; 10; 1; 9; 2]%float no_junk defaults 5
           ltac:(vm_compute; lia)).
Defined.

(** A signal that repeats one value, whatever it is (a NaN or an
    infinity too), has no cycle: [rainflow] returns five empty rows. *)
Theorem rainflow_flat_signal (c : float) (n : nat) (junk : nat -> float)
    (cfg : config) :
  (2 <= n)%nat ->
  rainflow (replicate n c) junk cfg = Returns [[]; []; []; []; []].
Proof.
  intros Hn.
  rewrite (rainflow_cycles cfg n) by (done || by rewrite length_replicate).
  unfold cycles. rewrite emitted_none; [done|].
  intros iv [Hp Hq]%intervals_points.
  apply elem_of_replicate in Hp as [Hp _], Hq as [Hq _].
  unfold counted. rewrite Hp, Hq. apply sub_self_not_positive.
Qed.

(** Three points of value 7. *)
Lemma rainflow_flat_signal_witness :
  (2 <= 3)%nat /\
  rainflow (replicate 3 7%float) no_junk defaults
  = Returns [[]; []; []; []; []].
Proof.
  split; [lia|].
  exact (rainflow_flat_signal 7%float 3 no_junk defaults ltac:(lia)).
Defined.

Lemma slice_cols_table_app (cs cs' : list cycle) :
  slice_cols (table (cs ++ cs')) (Z.of_nat (length cs)) = table cs.
Proof.
  unfold slice_cols, table, slice_to. simpl.
  destruct (Z.ltb_spec (Z.of_nat (length cs)) 0); [lia|].
  rewrite Nat2Z.id, !fmap_app.
  repeat f_equal; by rewrite take_app_length' by (by rewrite length_fmap).
Qed.

Lemma intervals_split (m : nat) (input : list float) :
  exists rest, intervals input = (scan (take m input) []).1 ++ rest.
Proof.
  unfold intervals.
  replace (scan input []) with (scan (take m input ++ drop m input) [])
    by (by rewrite take_drop).
  rewrite scan_app.
  destruct (scan (take m input) []) as [ivs1 stk1]. cbn [fst snd].
  destruct (scan (drop m input) stk1) as [ivs2 stk2]. cbn [fst snd].
  eexists. by rewrite <- app_assoc.
Qed.

(** The columns are final as soon as they are written: what the output
    buffer holds after the first [m] points, [array_out[:, :po]], is the
    beginning of the table returned for the whole input. *)
Theorem rainflow_columns_are_final (array_ext : list float)
    (junk : nat -> float) (cfg : config) (m : nat) :
  (2 <= length array_ext)%nat ->
  (m <= length array_ext)%nat ->
  exists s out,
    main_loop m array_ext junk cfg = Returns s /\
    rainflow array_ext junk cfg = Returns out /\
    0 <= po s <= Z.of_nat (n_cycle out) /\
    slice_cols (array_out s) (po s) = slice_cols out (po s).
Proof.
  intros Hn Hm.
  destruct (main_loop_scan cfg (length array_ext) Hn array_ext eq_refl junk m
              Hm) as (s & Hs & Hrepr).
  exists s, (table (cycles cfg array_ext)).
  split; [done|]. split; [by apply (rainflow_cycles cfg (length array_ext))|].
  destruct Hrepr as (_ & _ & _ & _ & Hpo & Hout & _).
  rewrite Hpo, Hout, slice_cols_padded.
  destruct (intervals_split m array_ext) as [rest Hrest].
  unfold cycles. rewrite Hrest, emitted_app, slice_cols_table_app.
  split; [|done]. simpl. rewrite length_fmap, length_app. lia.
Qed.

(** The demonstration array after its first five points. *)
Lemma rainflow_columns_are_final_witness :
  (2 <= length demo)%nat /\ (5 <= length demo)%nat /\
  exists s out,
    main_loop 5 demo no_junk defaults = Returns s /\
    rainflow demo no_junk defaults = Returns out /\
    0 <= po s <= Z.of_nat (n_cycle out) /\
    slice_cols (array_out s) (po s) = slice_cols out (po s).
Proof.
  split; [vm_compute; lia|]. split; [vm_compute; lia|].
  exact (rainflow_columns_are_final demo no_junk defaults 5
           ltac:(vm_compute; lia) ltac:(vm_compute; lia)).
Defined.

(** ** Further properties of [CycleCounter.rainflow_process] *)

Lemma take_at_returns {A : Type} (l : list A) (idx : list nat) (r : list A) :
  take_at l idx = Returns r ->
  length r = length idx /\ forall x, x ∈ r -> x ∈ l.
Proof.
  revert r. induction idx as [|i idx IH]; intros r H; simpl in H.
  - injection H as <-. split; [done|]. by intros x ?%elem_of_nil.
  - destruct (l !! i) as [y|] eqn:Hy; [|discriminate].
    destruct (take_at l idx) as [r'| |]; simpl in H; [|discriminate..].
    injection H as <-. destruct (IH r' eq_refl) as [Hlen Hin].
    split; [simpl; by rewrite Hlen|].
    intros x [->|Hx]%elem_of_cons; [|by apply Hin].
    by eapply list_elem_of_lookup_2.
Qed.

Lemma take_at_raises {A : Type} (l : list A) (idx : list nat) :
  (exists r, take_at l idx = Returns r) \/ take_at l idx = Raises IndexError.
Proof.
  induction idx as [|i idx IH]; simpl; [eauto|].
  destruct (l !! i); [|by right].
  destruct IH as [[r ->]| ->]; simpl; eauto.
Qed.

Lemma cols_at_returns (m : list (list float)) (idx : list nat)
    (m' : list (list float)) :
  cols_at m idx = Returns m' ->
  Forall2 (fun row row' => take_at row idx = Returns row') m m'.
Proof.
  revert m'. induction m as [|row m IH]; intros m' H; simpl in H.
  - injection H as <-. constructor.
  - destruct (take_at row idx) as [row'| |] eqn:Hrow; simpl in H;
      [|discriminate..].
    destruct (cols_at m idx) as [r| |]; simpl in H; [|discriminate..].
    injection H as <-. constructor; [done|by apply IH].
Qed.

Lemma cols_at_row (m m' : list (list float)) (idx : list nat) (k : nat)
    (row' : list float) :
  cols_at m idx = Returns m' -> m' !! k = Some row' ->
  exists row, m !! k = Some row /\ length row' = length idx /\
              forall x, x ∈ row' -> x ∈ row.
Proof.
  intros H%cols_at_returns Hk.
  destruct (Forall2_lookup_r _ _ _ _ _ H Hk) as (row & Hrow & Htake).
  apply take_at_returns in Htake as [Hlen Hin]. eauto.
Qed.

(** What a successful run of [rainflow_process] went through. *)
Lemma rainflow_process_returns (np_mean : list float -> float)
    (argsort : list float -> list nat) (self self' : CycleCounter)
    (junk : nat -> float) :
  rainflow_process np_mean argsort self junk = Returns self' ->
  exists (pts : list (float * float)) sorted r0 r1 r3,
    rainflow (snd <$> pts) junk defaults
    = Returns (table (cycles defaults (snd <$> pts))) /\
    cols_at (table (cycles defaults (snd <$> pts)))
      (argsort (lrange <$> cycles defaults (snd <$> pts)))
    = Returns sorted /\
    sorted !! 0%nat = Some r0 /\
    sorted !! 1%nat = Some r1 /\
    sorted !! 3%nat = Some r3 /\
    arr_dod self' = (fun x => x / 100)%float <$> r0 /\
    arr_n self' = r3 /\
    arr_soc_mean self' = (fun x => x / 100)%float <$> r1.
Proof.
  unfold rainflow_process, getrow. intros H.
  bind_inv H. bind_inv H.
  pose proof E0 as [_ ->]%rainflow_returns.
  cbn [table lookup list_lookup bind] in H.
  bind_inv H.
  destruct (x0 !! 0%nat) as [r0|] eqn:E3; cbn [bind] in H; [|discriminate].
  destruct (x0 !! 3%nat) as [r3|] eqn:E4; cbn [bind] in H; [|discriminate].
  destruct (x0 !! 1%nat) as [r1|] eqn:E5; cbn [bind] in H; [|discriminate].
  injection H as <-. cbn [arr_dod arr_n arr_soc_mean].
  exists x, x0, r0, r1, r3. by repeat split.
Qed.

Lemma rainflow_process_lengths (np_mean : list float -> float)
    (argsort : list float -> list nat) (self self' : CycleCounter)
    (junk : nat -> float) :
  rainflow_process np_mean argsort self junk = Returns self' ->
  length (arr_dod self') = length (arr_n self') /\
  length (arr_soc_mean self') = length (arr_n self').
Proof.
  intros (pts & sorted & r0 & r1 & r3 & _ & Hcols & H0 & H1 & H3 &
          -> & -> & ->)%rainflow_process_returns.
  destruct (cols_at_row _ _ _ _ _ Hcols H0) as (_ & _ & L0 & _).
  destruct (cols_at_row _ _ _ _ _ Hcols H1) as (_ & _ & L1 & _).
  destruct (cols_at_row _ _ _ _ _ Hcols H3) as (_ & _ & L3 & _).
  rewrite !length_fmap. lia.
Qed.


Lemma rainflow_process_junk (np_mean : list float -> float)
    (argsort : list float -> list nat) (self : CycleCounter)
    (junk1 junk2 : nat -> float) :
  rainflow_process np_mean argsort self junk1
  = rainflow_process np_mean argsort self junk2.
Proof.
  unfold rainflow_process. destruct (take_at _ _); cbn [bind]; [|done..].
  by rewrite (rainflow_junk _ junk1 junk2).
Qed.

(** The three arrays that [rainflow_process] stores have one length:
    the caller may index them together. *)
Theorem rainflow_process_arrays_aligned (np_mean : list float -> float)
    (argsort : list float -> list nat) (self self' : CycleCounter)
    (junk : nat -> float) :
  rainflow_process np_mean argsort self junk = Returns self' ->
  length (arr_dod self') = length (arr_n self') /\
  length (arr_soc_mean self') = length (arr_n self').
Proof. apply rainflow_process_lengths. Qed.

(** The signal in percent, with the stand-ins for numpy. *)
Lemma rainflow_process_arrays_aligned_witness :
  rainflow_process seq_mean stable_argsort percent_signal no_junk
  = Returns (mkCycleCounter [40; 60; 40; 60] [(2, 40)] [(1, 60)]
               0.5 [20 / 100] [0.5] [0.5])%float /\
  length [20 / 100]%float = length [0.5]%float.
Proof.
  split; [vm_compute; reflexivity|].
  exact (proj1 (rainflow_process_arrays_aligned seq_mean stable_argsort
                  percent_signal _ no_junk ltac:(vm_compute; reflexivity))).
Defined.

(** Every depth that [rainflow_process] stores is a positive range
    divided by 100, and every count it stores is 1.0 or 0.5. *)
Theorem rainflow_process_entries (np_mean : list float -> float)
    (argsort : list float -> list nat) (self self' : CycleCounter)
    (junk : nat -> float) :
  rainflow_process np_mean argsort self junk = Returns self' ->
  (forall d, d ∈ arr_dod self' ->
     exists r, d = (r / 100)%float /\ (0 <? r)%float = true) /\
  (forall w, w ∈ arr_n self' -> w = 1%float \/ w = 0.5%float).
Proof.
  intros (pts & sorted & r0 & r1 & r3 & _ & Hcols & H0 & _ & H3 &
          -> & -> & _)%rainflow_process_returns.
  destruct (cols_at_row _ _ _ _ _ Hcols H0) as (row0 & [= <-] & _ & In0).
  destruct (cols_at_row _ _ _ _ _ Hcols H3) as (row3 & [= <-] & _ & In3).
  split.
  - intros d (r & -> & Hr%In0)%list_elem_of_fmap. exists r. split; [done|].
    apply list_elem_of_fmap in Hr as (c & -> & Hc).
    by apply emitted_elem in Hc as (iv & _ & Hpos & ->).
  - intros w Hw%In3.
    apply list_elem_of_fmap in Hw as (c & -> & Hc).
    apply emitted_elem in Hc as (iv & _ & _ & ->).
    simpl. destruct (via iv); simpl; auto.
Qed.

(** The signal in percent, with the stand-ins for numpy. *)
Lemma rainflow_process_entries_witness :
  rainflow_process seq_mean stable_argsort percent_signal no_junk
  = Returns (mkCycleCounter [40; 60; 40; 60] [(2, 40)] [(1, 60)]
               0.5 [20 / 100] [0.5] [0.5])%float /\
  (forall w, w ∈ [0.5]%float -> w = 1%float \/ w = 0.5%float).
Proof.
  split; [vm_compute; reflexivity|].
  exact (proj2 (rainflow_process_entries seq_mean stable_argsort
                  percent_signal _ no_junk ltac:(vm_compute; reflexivity))).
Defined.



(** ** Properties of the stress models of [degradation_model.py] *)

#[local] Set Warnings "-inexact-float".

Section StressFacts.
Variable np_exp : float -> float.
Variable np_power : float -> float -> float.






(** The two degradation models read the keys [k_d1], [k_d2], [k_d3] in
    this order: each returns exactly when the three are there, and
    raises [KeyError] of the first that is missing otherwise. *)
Theorem deg_models_keys (params : gmap string float) (dod : float) :
  match match params !! "k_d1", params !! "k_d2", params !! "k_d3" with
        | None, _, _ => Some "k_d1"
        | Some _, None, _ => Some "k_d2"
        | Some _, Some _, None => Some "k_d3"
        | Some _, Some _, Some _ => None
        end with
  | Some key =>
      emp_deg_model_after_1_dod np_power params dod = Fails (KeyError key) /\
      exp_deg_model_after_1_dod np_exp params dod = Fails (KeyError key)
  | None =>
      (exists y, emp_deg_model_after_1_dod np_power params dod = Done y) /\
      (exists y, exp_deg_model_after_1_dod np_exp params dod = Done y)
  end.
Proof.
  unfold emp_deg_model_after_1_dod, exp_deg_model_after_1_dod, param.
  destruct (params !! "k_d1"), (params !! "k_d2"), (params !! "k_d3");
    simpl; eauto.
Qed.

(** [exp_deg_model_after_1_dod] needs the key [k_d3] but does not use
    its value. *)
Theorem exp_deg_model_ignores_k_d3 (params : gmap string float)
    (dod v w : float) :
  exp_deg_model_after_1_dod np_exp (<["k_d3" := v]> params) dod
  = exp_deg_model_after_1_dod np_exp (<["k_d3" := w]> params) dod /\
  exp_deg_model_after_1_dod np_exp (delete "k_d3" params) dod
  = match params !! "k_d1", params !! "k_d2" with
    | None, _ => Fails (KeyError "k_d1")
    | Some _, None => Fails (KeyError "k_d2")
    | Some _, Some _ => Fails (KeyError "k_d3")
    end.
Proof.
  unfold exp_deg_model_after_1_dod, param.
  rewrite !lookup_insert_eq, !lookup_delete_eq.
  rewrite !lookup_insert_ne, !lookup_delete_ne by done.
  split; by destruct (params !! "k_d1"), (params !! "k_d2").
Qed.

Lemma three_params_lookup (k_d1 k_d2 k_d3 : float) :
  three_params k_d1 k_d2 k_d3 !! "k_d1" = Some k_d1 /\
  three_params k_d1 k_d2 k_d3 !! "k_d2" = Some k_d2 /\
  three_params k_d1 k_d2 k_d3 !! "k_d3" = Some k_d3.
Proof.
  unfold three_params. by repeat split.
Qed.

(** [dod_deg_model] never raises.  For NMC and LMO it returns the
    inverse power law of [emp_deg_model_after_1_dod] with the parameters
    of the chemistry, for LFP the exponential law of
    [exp_deg_model_after_1_dod], and for any other name [None]. *)
Theorem dod_deg_model_cases (chemistry : string) (dod : float) :
  dod_deg_model np_exp np_power chemistry dod
  = Done
      (if String.eqb chemistry "NMC"
       then Some (1 / (1.47e+04 * np_power dod (-1.65e+00) + 3.61e+02))%float
       else if String.eqb chemistry "LMO"
       then Some (1 / (1.39e+05 * np_power dod (-5.09e-01) + -1.21e+05))%float
       else if String.eqb chemistry "LFP"
       then Some (9.05e-06 * dod * np_exp (1.40e+00 * dod))%float
       else None).
Proof.
  unfold dod_deg_model, emp_deg_model_after_1_dod, exp_deg_model_after_1_dod,
    param.
  repeat match goal with
         | |- context [three_params ?x ?y ?z] =>
             destruct (three_params_lookup x y z) as (-> & -> & ->)
         end.
  by repeat destruct (String.eqb _ _).
Qed.

End StressFacts.

#[local] Set Warnings "+inexact-float".

(** ** Properties of [final_degradation_model] *)

#[local] Set Warnings "-inexact-float".

Section DegradationFacts.
Variable np_exp : float -> float.
Variable np_power : float -> float -> float.
Variable read_csv : string -> attempt (list float * list float).
Variable peakdet :
  list float -> float -> attempt (list (float * float) * list (float * float)).
Variable np_mean : list float -> float.
Variable argsort : list float -> list nat.




(** What a successful construction from two vectors went through. *)
Lemma CycleCounter_init_vectors (time_v soc_v : option (list float))
    (delta : float) (title : string) (obj : CycleCounterObject) :
  CycleCounter_init read_csv peakdet "" time_v soc_v delta title = Done obj ->
  exists t s maxt mint,
    time_v = Some t /\ soc_v = Some s /\ length t = length s /\
    peakdet s delta = Done (maxt, mint) /\
    obj = mkCycleCounterObject (mkCycleCounter s mint maxt 0%float [] [] [])
            t title delta.
Proof.
  unfold CycleCounter_init. cbn [String.eqb].
  destruct time_v as [t|], soc_v as [s|]; cbn [and_then]; try discriminate.
  destruct (length t =? length s)%nat eqn:E; cbn [negb]; [|discriminate].
  apply Nat.eqb_eq in E. unfold turning_points_extraction.
  simpl.
  destruct (peakdet s delta) as [[maxt mint]|e] eqn:Ep; cbn [and_then];
    [|discriminate].
  intros [= <-]. by exists t, s, maxt, mint.
Qed.






(** Without one of the two vectors [final_degradation_model] exits with
    the message of [CycleCounter]: no file is read, [peakdet] is not
    called. *)
Theorem final_degradation_model_missing_vector
    (time_v soc_v : option (list float))
    (T time : float) (chemistry : string) (delta : float) (title : string)
    (junk : nat -> float) :
  time_v = None \/ soc_v = None ->
  CycleCounter_init read_csv peakdet "" time_v soc_v delta title
  = Fails (SystemExit
             "Either a path or vectors must be argument of CycleCounter") /\
  final_degradation_model np_exp np_power read_csv peakdet np_mean argsort
    time_v soc_v T time chemistry delta title junk
  = Fails (SystemExit
             "Either a path or vectors must be argument of CycleCounter").
Proof.
  unfold final_degradation_model, CycleCounter_init. cbn [String.eqb].
  intros [-> | ->]; [done|]. by destruct time_v.
Qed.


(** What [np.empty] left in the temporary array of [rainflow] is never
    seen: [rainflow], [rainflow_process] and [final_degradation_model]
    give the same result, a value or an exception, whatever it is. *)
Theorem np_empty_not_observed (junk1 junk2 : nat -> float) :
  (forall array_ext cfg,
      rainflow array_ext junk1 cfg = rainflow array_ext junk2 cfg) /\
  (forall self,
      rainflow_process np_mean argsort self junk1
      = rainflow_process np_mean argsort self junk2) /\
  (forall time_v soc_v T time chemistry delta title,
      final_degradation_model np_exp np_power read_csv peakdet np_mean
        argsort time_v soc_v T time chemistry delta title junk1
      = final_degradation_model np_exp np_power read_csv peakdet np_mean
          argsort time_v soc_v T time chemistry delta title junk2).
Proof.
  split; [|split].
  - intros. apply rainflow_junk.
  - intros. apply rainflow_process_junk.
  - intros. unfold final_degradation_model.
    destruct (CycleCounter_init _ _ _ _ _ _ _); cbn [and_then]; [|done].
    by rewrite (rainflow_process_junk _ _ _ junk1 junk2).
Qed.
End DegradationFacts.

#[local] Set Warnings "+inexact-float".



(** A call without the time vector. *)
Lemma final_degradation_model_missing_vector_witness :
  final_degradation_model exp_stand_in power_stand_in no_csv two_extrema
    seq_mean stable_argsort None (Some [40; 60; 40; 60]%float)
    25 1000 "NMC" (1 / 10) "" no_junk
  = Fails (SystemExit
             "Either a path or vectors must be argument of CycleCounter").
Proof.
  exact (proj2 (final_degradation_model_missing_vector exp_stand_in
                  power_stand_in no_csv two_extrema seq_mean stable_argsort
                  None (Some [40; 60; 40; 60]%float) 25 1000 "NMC" (1 / 10)
                  "" no_junk (or_introl eq_refl))).
Defined.


(** ** [rainflow_process] with an [argsort] that permutes the indices *)








